(** * Gate algebra of the quantum-circuit demo

    A shallow embedding of the shared quantum state logic (the module that
    exports [applyGate], [buildStepStates], [measureState],
    [generateRandomCircuit], [generateFixtureGrid], [parseGateString],
    [buildColumnData] and [gatesToString]) and of the private copies of
    [applyGate] and [buildStepStates] kept by the circuit view ([App]),
    with the view's slot editing and the timers its Start button sets, and
    the texts the fixture view ([FixtureView]) keeps for its columns.

    Modelling choices, all taken from the JavaScript source:
    - a state is the JavaScript string the code compares with [===];
    - a gate slot is [null] or a string: [option string];
    - [gateTable] and [validGates] are object literals used as dictionaries:
      [gmap] keyed by strings, holding the literal's own properties.  The
      members every object inherits ([constructor], [toString], ...) have no
      one-letter name and no property named ZERO, ONE, PLUS, MINUS or
      DECOHERED, so looking up a character, or one of the five states
      through them, is [undefined] as well;
    - counts ([numGates], [size]) are natural numbers, and every parameter
      is passed explicitly (the defaults [size = 5], [numGates = 4] are
      what an omitted argument stands for);
    - [Math.random] is an explicit source of draws threaded through the
      code that calls it; a draw is a binary64 number given by its
      mantissa and exponent, compared exactly and multiplied with IEEE
      rounding.
    Where the model stops: a text with characters outside ASCII (JavaScript
    upper-cases U+0149 and U+1E96 to sequences holding N and H) and a lookup
    in [gateTable] of a state other than the five (which may find a member
    of [Object.prototype], as in [applyGate('name', 'constructor')]) are
    outside it. *)

From Stdlib Require Import Ascii String QArith Qround.
From stdpp Require Import base option list strings gmap.

Local Open Scope string_scope.
Local Open Scope list_scope.

(** ** JavaScript values used by the module *)

(** A state name ('ZERO', 'ONE', 'PLUS', 'MINUS', 'DECOHERED', or any other
    string a caller passes). *)
Abbreviation state := string (only parsing).

(** A slot of a gate array: [None] is [null], [Some g] the string [g]. *)
Abbreviation gate := (option string) (only parsing).

(** [!gate]: [null] and the empty string are falsy, every other string is
    truthy. *)
Definition truthy (g : gate) : bool :=
  match g with
  | None => false
  | Some s => negb (String.eqb s EmptyString)
  end.

(** ** The randomness source

    [Math.random()] returns a double [r] with [0 <= r < 1].  The doubles of
    that range are the numbers [m / 2^s] with [m < 2^53] and
    [53 <= s <= 1074] (binary64: 53 significant bits, least exponent -1074),
    so a draw is such a pair and [draw_val] its exact value.  The source is
    the sequence of numbers that successive calls return, [drawn] counts the
    calls made so far. *)
Record draw := Draw {
  draw_mant : N;
  draw_shift : positive;
  draw_range : (draw_mant <? 2 ^ 53)%N && (53 <=? draw_shift)%positive
               && (draw_shift <=? 1074)%positive = true
}.

Definition draw_val (d : draw) : Q :=
  Z.of_N (draw_mant d) # (2 ^ draw_shift d)%positive.

Record rng := Rng { source : nat → draw; drawn : nat }.

(** Code that may call [Math.random]: it receives the source and hands it
    back with the calls it made counted. *)
Definition Rand (A : Type) : Type := rng → A * rng.

#[global] Instance Rand_ret : MRet Rand := λ A x r, (x, r).
#[global] Instance Rand_bind : MBind Rand :=
  λ A B f m r, let (x, r') := m r in f x r'.

(** [Math.random()] *)
Definition random : Rand draw :=
  λ r, (source r (drawn r), Rng (source r) (S (drawn r))).

(** [Math.random() < 0.5] *)
Definition below_half (d : draw) : bool := negb (Qle_bool (1 # 2) (draw_val d)).

(** Rounding to binary64 of a number [p / 2^s] with [s <= 1074], as a map
    on the numerator [p]: a numerator of more than 53 bits loses its [k]
    excess low bits, to the nearest multiple of [2^k], to the even one of
    the two when it lies half-way (IEEE 754 round to nearest, ties to
    even). *)
Definition round53 (p : N) : N :=
  let k := (N.log2 p + 1 - 53)%N in
  if (k =? 0)%N then p
  else
    let q := (p / 2 ^ k)%N in
    let rem := (p mod 2 ^ k)%N in
    let half := (2 ^ (k - 1))%N in
    let q' := if (half <? rem)%N || ((rem =? half)%N && N.odd q)
              then (q + 1)%N else q in
    (q' * 2 ^ k)%N.

(** [Math.floor(Math.random() * n)] for an array length [n]: the product of
    the doubles [m / 2^s] and [n] is the exact product [m * n / 2^s] rounded
    to binary64 ([n] is below [2^32], so the product neither overflows nor
    underflows), and [Math.floor] takes the integer part of the rounded
    product. *)
Definition floor_scaled (d : draw) (n : nat) : nat :=
  N.to_nat (round53 (draw_mant d * N.of_nat n) / 2 ^ N.pos (draw_shift d)).

(** [Array.from({ length: n }, f)]: [f] is called once per index, in
    increasing order. *)
Fixpoint arrayFrom {A} (n : nat) (f : Rand A) : Rand (list A) :=
  match n with
  | O => mret []
  | S n' => x ← f; xs ← arrayFrom n' f; mret (x :: xs)
  end.

(** [for (let i = 0; i < n; i++) body] for a body that does not read [i]:
    the body runs [n] times on the loop's variables. *)
Fixpoint forLoop {A} (n : nat) (body : A → Rand A) (acc : A) : Rand A :=
  match n with
  | O => mret acc
  | S n' => acc' ← body acc; forLoop n' body acc'
  end.

(** ** Strings

    Strings are sequences of 8-bit characters; [toUpperCase] is the ASCII
    part of [String.prototype.toUpperCase]. *)
Definition upper_ascii (c : ascii) : ascii :=
  let n := nat_of_ascii c in
  if (97 <=? n)%nat && (n <=? 122)%nat then ascii_of_nat (n - 32) else c.

Fixpoint toUpperCase (s : string) : string :=
  match s with
  | EmptyString => EmptyString
  | String c rest => String (upper_ascii c) (toUpperCase rest)
  end.

(** [array.join('')]: [null] entries are rendered as the empty string. *)
Definition join (l : list (option string)) : string :=
  String.concat EmptyString (default EmptyString <$> l).

(** ** The shared module *)

Module Quantum.

(** [const gateTable = { X: {...}, H: {...}, Z: {...}, NOISE: {...} }] *)
Definition gateTable : gmap string (gmap string string) :=
  <["X" := <["ZERO" := "ONE"]> (<["ONE" := "ZERO"]>
             (<["PLUS" := "PLUS"]> (<["MINUS" := "MINUS"]> ∅)))]>
  (<["H" := <["ZERO" := "PLUS"]> (<["ONE" := "MINUS"]>
             (<["PLUS" := "ZERO"]> (<["MINUS" := "ONE"]> ∅)))]>
  (<["Z" := <["ZERO" := "ZERO"]> (<["ONE" := "ONE"]>
             (<["PLUS" := "MINUS"]> (<["MINUS" := "PLUS"]> ∅)))]>
  (<["NOISE" := <["ZERO" := "DECOHERED"]> (<["ONE" := "DECOHERED"]>
             (<["PLUS" := "DECOHERED"]> (<["MINUS" := "DECOHERED"]> ∅)))]>
   ∅))).

(** [tbl[gate]?.[state]]: the property key of [gate] selects a row, the
    state a cell of it; [None] is [undefined], the value of the expression
    when either key is missing. *)
Definition tableLookup (tbl : gmap string (gmap string string))
    (g : gate) (s : state) : option string :=
  name ← g; row ← tbl !! name; row !! s.

(** [[
    export function applyGate(state, gate) {
        if (!gate) return state;
        if (state === 'DECOHERED') return 'DECOHERED';
        return gateTable[gate]?.[state] ?? state;
    }
    ]] *)
Definition applyGate (s : state) (g : gate) : state :=
  if negb (truthy g) then s
  else if String.eqb s "DECOHERED" then "DECOHERED"
  else default s (tableLookup gateTable g s).

(** [initialState === 'ONE' ? 'ONE' : 'ZERO'] *)
Definition seed (initialState : state) : state :=
  if String.eqb initialState "ONE" then "ONE" else "ZERO".

(** One turn of the [for (const gate of gates)] loop: the loop variables are
    the array [states] and [current]. *)
Definition stepLoop (acc : list state * state) (g : gate) : list state * state :=
  let current := applyGate (snd acc) g in
  (fst acc ++ [current], current).

(** [[
    export function buildStepStates(initialState, gates) {
        const states = [initialState === 'ONE' ? 'ONE' : 'ZERO'];
        let current = states[0];
        for (const gate of gates) {
            current = applyGate(current, gate);
            states.push(current);
        }
        return states;
    }
    ]] *)
Definition buildStepStates (initialState : state) (gates : list gate) : list state :=
  let states := [seed initialState] in
  let current := seed initialState in
  fst (foldl stepLoop (states, current) gates).

(** [[
    export function measureState(state) {
        switch (state) {
            case 'ZERO': return 'blue';
            case 'ONE': return 'red';
            case 'PLUS':
            case 'MINUS': return Math.random() < 0.5 ? 'blue' : 'red';
            case 'DECOHERED': return 'yellow';
            default: return 'blue';
        }
    }
    ]] *)
Definition measureState (s : state) : Rand string :=
  if String.eqb s "ZERO" then mret "blue"
  else if String.eqb s "ONE" then mret "red"
  else if String.eqb s "PLUS" || String.eqb s "MINUS" then
    d ← random; mret (if below_half d then "blue" else "red")
  else if String.eqb s "DECOHERED" then mret "yellow"
  else mret "blue".

(** [const availableGates = ['X', 'H', 'Z', null, null];] *)
Definition availableGates : list gate := [Some "X"; Some "H"; Some "Z"; None; None].

(** [availableGates[Math.floor(Math.random() * availableGates.length)]].
    An index past the end would read [undefined]; [pick_in_range] below
    shows that no draw produces one. *)
Definition pickGate : Rand gate :=
  d ← random;
  mret (default None (availableGates !! floor_scaled d (length availableGates))).

(** [[
    export function generateRandomCircuit(numGates = 4) {
        return Array.from({ length: numGates }, () =>
            availableGates[Math.floor(Math.random() * availableGates.length)]
        );
    }
    ]] *)
Definition generateRandomCircuit (numGates : nat) : Rand (list gate) :=
  arrayFrom numGates pickGate.

(** The object [{ gates, states, finalState, measurement }]. *)
Record columnData := ColumnData {
  gates : list gate;
  states : list state;
  finalState : state;
  measurement : string
}.

(** [[
    export function buildColumnData(gates) {
        const states = buildStepStates('ZERO', gates);
        const finalState = states[states.length - 1];
        const measurement = measureState(finalState);
        return { gates, states, finalState, measurement };
    }
    ]]
    [states] is never empty ([buildStepStates_last] below), so the default
    of the index expression is not reached. *)
Definition buildColumnData (gates : list gate) : Rand columnData :=
  let states := buildStepStates "ZERO" gates in
  let finalState := default "ZERO" (states !! (length states - 1)%nat) in
  measurement ← measureState finalState;
  mret (ColumnData gates states finalState measurement).

(** [[
    export function generateFixtureGrid(size = 5, numGates = 4) {
        const grid = [];
        for (let row = 0; row < size; row++) {
            const rowData = [];
            for (let col = 0; col < size; col++) {
                const gates = generateRandomCircuit(numGates);
                rowData.push(buildColumnData(gates));
            }
            grid.push(rowData);
        }
        return grid;
    }
    ]] *)
Definition fixtureCell (numGates : nat) (rowData : list columnData)
    : Rand (list columnData) :=
  gates ← generateRandomCircuit numGates;
  cell ← buildColumnData gates;
  mret (rowData ++ [cell]).

Definition fixtureRow (size numGates : nat) (grid : list (list columnData))
    : Rand (list (list columnData)) :=
  rowData ← forLoop size (fixtureCell numGates) [];
  mret (grid ++ [rowData]).

Definition generateFixtureGrid (size numGates : nat)
    : Rand (list (list columnData)) :=
  forLoop size (fixtureRow size numGates) [].

(** [const validGates = { X: 'X', H: 'H', Z: 'Z', N: 'NOISE' };] *)
Definition validGates : gmap string string :=
  <["X" := "X"]> (<["H" := "H"]> (<["Z" := "Z"]> (<["N" := "NOISE"]> ∅))).

(** One turn of [for (const ch of ...)]:
    [if (validGates[ch] && gates.length < numGates) gates.push(validGates[ch]);] *)
Definition parseStep (numGates : nat) (gates : list gate) (ch : ascii) : list gate :=
  let found := validGates !! String ch EmptyString in
  if truthy found && (length gates <? numGates)%nat
  then gates ++ [found]
  else gates.

(** [while (gates.length < numGates) gates.push(null);] run for at most
    [fuel] turns. *)
Fixpoint padLoop (fuel numGates : nat) (gates : list gate) : list gate :=
  match fuel with
  | O => gates
  | S fuel' =>
      if (length gates <? numGates)%nat
      then padLoop fuel' numGates (gates ++ [None])
      else gates
  end.

(** [[
    export function parseGateString(str, numGates = 4) {
        const gates = [];
        for (const ch of (str || '').toUpperCase()) {
            if (validGates[ch] && gates.length < numGates) {
                gates.push(validGates[ch]);
            }
        }
        while (gates.length < numGates) gates.push(null);
        return gates;
    }
    ]]
    [str] may be [null]; the padding loop needs at most [numGates] turns. *)
Definition parseGateString (str : option string) (numGates : nat) : list gate :=
  let text := if truthy str then default EmptyString str else EmptyString in
  let gates := foldl (parseStep numGates) [] (list_ascii_of_string (toUpperCase text)) in
  padLoop numGates numGates gates.

(** [[
    export function gatesToString(gates) {
        return gates
            .filter(Boolean)
            .map(g => g === 'NOISE' ? 'N' : g)
            .join('');
    }
    ]] *)
Definition gateLetter (g : gate) : gate :=
  match g with
  | Some name => if String.eqb name "NOISE" then Some "N" else g
  | None => g
  end.

Definition gatesToString (gates : list gate) : string :=
  join (gateLetter <$> List.filter truthy gates).

(** [export const stateLabels = { ZERO: '|0⟩', ONE: '|1⟩', PLUS: '|+⟩',
     MINUS: '|−⟩', DECOHERED: 'Decohered' };] *)
Definition stateLabels : gmap string string :=
  <["ZERO" := "|0⟩"]> (<["ONE" := "|1⟩"]> (<["PLUS" := "|+⟩"]>
  (<["MINUS" := "|−⟩"]> (<["DECOHERED" := "Decohered"]> ∅)))).

(** [export const stateColors = { ZERO: '#3b82f6', ONE: '#ef4444',
     PLUS: '#a855f7', MINUS: '#06b6d4', DECOHERED: '#fbbf24' };] *)
Definition stateColors : gmap string string :=
  <["ZERO" := "#3b82f6"]> (<["ONE" := "#ef4444"]> (<["PLUS" := "#a855f7"]>
  (<["MINUS" := "#06b6d4"]> (<["DECOHERED" := "#fbbf24"]> ∅)))).

(** [export const stateHexColors = { blue: 0x3b82f6, red: 0xef4444,
     yellow: 0xfbbf24 };] *)
Definition stateHexColors : gmap string N :=
  <["blue" := 0x3b82f6%N]> (<["red" := 0xef4444%N]> (<["yellow" := 0xfbbf24%N]> ∅)).

End Quantum.

(** ** The circuit view's private copies *)

Module App.

(** The [table] literal local to the view's [applyGate]. *)
Definition table : gmap string (gmap string string) :=
  <["X" := <["ZERO" := "ONE"]> (<["ONE" := "ZERO"]>
             (<["PLUS" := "PLUS"]> (<["MINUS" := "MINUS"]> ∅)))]>
  (<["H" := <["ZERO" := "PLUS"]> (<["ONE" := "MINUS"]>
             (<["PLUS" := "ZERO"]> (<["MINUS" := "ONE"]> ∅)))]>
  (<["Z" := <["ZERO" := "ZERO"]> (<["ONE" := "ONE"]>
             (<["PLUS" := "MINUS"]> (<["MINUS" := "PLUS"]> ∅)))]>
  (<["NOISE" := <["ZERO" := "DECOHERED"]> (<["ONE" := "DECOHERED"]>
             (<["PLUS" := "DECOHERED"]> (<["MINUS" := "DECOHERED"]> ∅)))]>
   ∅))).

(** [[
    function applyGate(state, gate) {
      if (!gate) return state;
      if (state === 'DECOHERED') return 'DECOHERED';
      const table = { ... };
      return table[gate]?.[state] ?? state;
    }
    ]] *)
Definition applyGate (s : state) (g : gate) : state :=
  if negb (truthy g) then s
  else if String.eqb s "DECOHERED" then "DECOHERED"
  else default s (Quantum.tableLookup table g s).

Definition stepLoop (acc : list state * state) (g : gate) : list state * state :=
  let current := applyGate (snd acc) g in
  (fst acc ++ [current], current).

(** [[
    function buildStepStates(initialState, gates) {
      // Returns array of length gates.length + 2
      // [initial, afterGate0, afterGate1, ..., afterGateN-1, final(same as last)]
      const states = [initialState === 'ONE' ? 'ONE' : 'ZERO'];
      let current = states[0];
      for (const gate of gates) {
        current = applyGate(current, gate);
        states.push(current);
      }
      states.push(current); // detector position same as final state
      return states;
    }
    ]] *)
Definition buildStepStates (initialState : state) (gates : list gate) : list state :=
  let states := [Quantum.seed initialState] in
  let current := Quantum.seed initialState in
  let (states', current') := foldl stepLoop (states, current) gates in
  states' ++ [current'].

(** [[
    function measureState(state) {
      switch (state) {
        case 'ZERO': return 'blue';
        case 'ONE': return 'red';
        case 'PLUS':
        case 'MINUS':
          return Math.random() < 0.5 ? 'blue' : 'red';
        case 'DECOHERED': return 'yellow';
        default: return 'blue';
      }
    }
    ]] *)
Definition measureState (s : state) : Rand string :=
  if String.eqb s "ZERO" then mret "blue"
  else if String.eqb s "ONE" then mret "red"
  else if String.eqb s "PLUS" || String.eqb s "MINUS" then
    d ← random; mret (if below_half d then "blue" else "red")
  else if String.eqb s "DECOHERED" then mret "yellow"
  else mret "blue".

(** [measureState(st)] for an [st] read from the array [stepStates]:
    [undefined] ([None]), read past the end, takes the [default] branch. *)
Definition measureRead (st : option state) : Rand string :=
  match st with
  | Some s => measureState s
  | None => mret "blue"
  end.

(** [const NUM_SLOTS = 4;] *)
Definition NUM_SLOTS : nat := 4.

(** [n[index] = value] on the copy [n = [...prev]]: an index inside the
    array replaces the element, an index past the end grows the array, the
    slots in between reading as [undefined], which every reader of the slots
    treats like [null] ([None]). *)
Definition arraySet (index : nat) (value : gate) (prev : list gate) : list gate :=
  if (index <? length prev)%nat then <[index := value]> prev
  else prev ++ replicate (index - length prev) None ++ [value].

(** [[
    const handleDropGate = useCallback((index, gateType) => {
      setGateSlots((prev) => { const n = [...prev]; n[index] = gateType; return n; });
    }, []);
    ]] *)
Definition handleDropGate (index : nat) (gateType : string) (prev : list gate)
    : list gate :=
  arraySet index (Some gateType) prev.

(** [[
    const handleRemoveGate = useCallback((index) => {
      setGateSlots((prev) => { const n = [...prev]; n[index] = null; return n; });
    }, []);
    ]] *)
Definition handleRemoveGate (index : nat) (prev : list gate) : list gate :=
  arraySet index None prev.

(** A pending [setTimeout]: its delay in milliseconds and the [step] and
    [st] its callback has captured. *)
Record timer := Timer { delay : nat; step : nat; st : option state }.

(** The scheduling loop of [handleStart], for at most [fuel] turns:
    [[
    for (let step = 1; step <= totalSteps; step++) {
      const st = stepStates[step];
      const t = setTimeout(() => { ... }, delay);
      timeoutRef.current.push(t);
      delay += 700;
      // Don't schedule steps past decoherence
      if (st === 'DECOHERED') break;
    }
    ]] *)
Fixpoint scheduleLoop (fuel : nat) (stepStates : list state)
    (totalSteps step delay : nat) (timers : list timer) : list timer :=
  match fuel with
  | O => timers
  | S fuel' =>
      if (step <=? totalSteps)%nat then
        let st := stepStates !! step in
        let timers' := timers ++ [Timer delay step st] in
        let delay' := (delay + 700)%nat in
        if bool_decide (st = Some "DECOHERED") then timers'
        else scheduleLoop fuel' stepStates totalSteps (S step) delay' timers'
      else timers
  end.

(** The timers [handleStart] leaves in [timeoutRef.current] when the view is
    not running: [totalSteps = NUM_SLOTS + 1], [delay] starts at 800 and the
    loop makes at most [totalSteps] turns. *)
Definition handleStart_timers (stepStates : list state) : list timer :=
  let totalSteps := (NUM_SLOTS + 1)%nat in
  scheduleLoop totalSteps stepStates totalSteps 1 800 [].

(** Whether the callback of a timer measures, and what:
    [[
    if (st === 'DECOHERED') { ...; return; }
    if (step === totalSteps) {
      const color = measureState(st);
      ...
    }
    ]] *)
Definition timerMeasures (t : timer) : option (Rand string) :=
  if bool_decide (st t = Some "DECOHERED") then None
  else if (step t =? NUM_SLOTS + 1)%nat then Some (measureRead (st t))
  else None.

End App.

(** ** The fixture view *)

Module FixtureView.

(** [const GRID_SIZE = 5; const NUM_GATES = 4;
     const TOTAL_STEPS = NUM_GATES + 1;] *)
Definition GRID_SIZE : nat := 5.
Definition NUM_GATES : nat := 4.
Definition TOTAL_STEPS : nat := NUM_GATES + 1.

(** ['XHZN'.includes(ch)] for a one-character [ch]. *)
Definition isGateChar (ch : ascii) : bool :=
  existsb (Ascii.eqb ch) (list_ascii_of_string "XHZN").

(** The text [updateCell] stores for a typed value:
    [[
    const filtered = value
        .toUpperCase()
        .split('')
        .filter((ch) => 'XHZN'.includes(ch))
        .slice(0, 4)
        .join('');
    ]] *)
Definition filtered (value : string) : string :=
  string_of_list_ascii
    (take 4 (List.filter isGateChar (list_ascii_of_string (toUpperCase value)))).

(** The text kept for a generated column:
    [(col) => gatesToString(col.gates)]. *)
Definition cellText (col : Quantum.columnData) : string :=
  Quantum.gatesToString (Quantum.gates col).

(** The column shown for a text:
    [[
    (str) => {
        const gates = parseGateString(str, NUM_GATES);
        return buildColumnData(gates);
    }
    ]] *)
Definition cellData (str : string) : Rand Quantum.columnData :=
  Quantum.buildColumnData (Quantum.parseGateString (Some str) NUM_GATES).

End FixtureView.

(** ** Sample randomness sources *)

Definition src0 : nat → draw := λ _, Draw 2251799813685248 53 eq_refl.

(** The doubles written 0.0, 0.1, ..., 0.9, in turn, then 0.9 for ever. *)
Definition src1 : nat → draw := λ n,
  nth n [Draw 0 53 eq_refl;
         Draw 3602879701896397 55 eq_refl;
         Draw 3602879701896397 54 eq_refl;
         Draw 5404319552844595 54 eq_refl;
         Draw 3602879701896397 53 eq_refl;
         Draw 4503599627370496 53 eq_refl;
         Draw 5404319552844595 53 eq_refl;
         Draw 6305039478318694 53 eq_refl;
         Draw 7205759403792794 53 eq_refl]
        (Draw 8106479329266893 53 eq_refl).

(** ** The spec's vocabulary *)

(** The four states on which the gates act as permutations. *)
Definition coherentStates : list state := ["ZERO"; "ONE"; "PLUS"; "MINUS"].

(** The five states of the data model. *)
Definition allStates : list state := coherentStates ++ ["DECOHERED"].

(** The gate names with a row in the table. *)
Definition gateNames : list string := ["X"; "H"; "Z"; "NOISE"].

(** The states visited after the seed: element [i] is the state after the
    gates [0..i]. *)
Fixpoint run (apply : state → gate → state) (current : state) (gates : list gate)
    : list state :=
  match gates with
  | [] => []
  | g :: rest => apply current g :: run apply (apply current g) rest
  end.

(** A gate sequence of the data model: every slot is absent or holds one of
    the four gate names. *)
Definition isGateSequence (seq : list gate) : Prop :=
  Forall (λ g : gate, g = None ∨ ∃ name, g = Some name ∧ name ∈ gateNames) seq.

(** No absent slot comes before a populated slot. *)
Definition noGapBeforeLast (seq : list gate) : Prop :=
  ∀ (i j : nat) (name : string),
    (i < j)%nat → seq !! j = Some (Some name) → seq !! i ≠ Some None.

(** A call [generateFixtureGrid(rows, cols, length)]: JavaScript binds the
    first two arguments to [size] and [numGates] and drops the third. *)
Definition generateFixtureGrid3 (rows cols len : nat)
    : Rand (list (list Quantum.columnData)) :=
  Quantum.generateFixtureGrid rows cols.

(** A grid of [rows] rows and [cols] columns whose cells hold gate arrays of
    length [len]. *)
Definition gridShape (rows cols len : nat) (grid : list (list Quantum.columnData))
    : Prop :=
  length grid = rows
  ∧ Forall (λ row, length row = cols
                   ∧ Forall (λ cell, length (Quantum.gates cell) = len) row) grid.

(** What a cell made by [buildColumnData] from a random circuit of length
    [numGates] holds. *)
Definition cellShape (numGates : nat) (cell : Quantum.columnData) : Prop :=
  length (Quantum.gates cell) = numGates
  ∧ Forall (λ g, g ∈ Quantum.availableGates) (Quantum.gates cell)
  ∧ Quantum.states cell = Quantum.buildStepStates "ZERO" (Quantum.gates cell)
  ∧ last (Quantum.states cell) = Some (Quantum.finalState cell)
  ∧ Quantum.measurement cell ∈ ["blue"; "red"; "yellow"].

(** The presentation-layer choice in the spec's words: a trajectory with a
    duplicate of its final element appended. *)
Definition withDetector (trajectory : list state) : list state :=
  trajectory ++ option_list (last trajectory).

(** The source after [n] more calls of [Math.random]. *)
Definition consumed (n : nat) (r : rng) : rng := Rng (source r) (n + drawn r).

(** The state a run of gates ends in: the loop variable [current] of
    [buildStepStates] after the last turn. *)
Definition finalOf (s : state) (gates : list gate) : state :=
  foldl Quantum.applyGate s gates.

(** ZERO and ONE exchanged. *)
Definition flipBasis (s : state) : state :=
  if String.eqb s "ZERO" then "ONE" else if String.eqb s "ONE" then "ZERO" else s.

(** The number of slots holding the gate [name]. *)
Definition countGate (name : string) (gates : list gate) : nat :=
  length (List.filter (λ g : gate, bool_decide (g = Some name)) gates).

(** The letter a character stands for in [validGates], if any. *)
Definition gateOfLetter (c : ascii) : gate :=
  Quantum.validGates !! String c EmptyString.

(** The characters of a text that the parser keeps, in order. *)
Definition validLetters (text : string) : list ascii :=
  List.filter (λ c, truthy (gateOfLetter c))
              (list_ascii_of_string (toUpperCase text)).

(** The populated slots of a gate array moved to the front, the array's
    length kept. *)
Definition compact (seq : list gate) : list gate :=
  List.filter truthy seq
  ++ replicate (length seq - length (List.filter truthy seq)) None.

(** The last element of a non-empty list does not depend on the default. *)
Lemma last_cons_default {A} (x d : A) (l : list A) :
  List.last (x :: l) d = List.last l x.
Proof.
  revert x d. induction l as [|y l IH]; intros x d; [done|].
  change (List.last (x :: y :: l) d) with (List.last (y :: l) d).
  by rewrite !IH.
Qed.

(** ** Facts about the transition function *)

Section Transition.

Import Quantum.

Lemma applyGate_absent (s : state) (g : gate) :
  truthy g = false → applyGate s g = s.
Proof. intros H. unfold applyGate. by rewrite H. Qed.

Lemma applyGate_decohered (g : gate) : applyGate "DECOHERED" g = "DECOHERED".
Proof. unfold applyGate. by destruct (truthy g). Qed.

Lemma gateTable_unknown (name : string) :
  name ∉ gateNames → gateTable !! name = None.
Proof.
  unfold gateNames, gateTable. intros H.
  rewrite !not_elem_of_cons in H. destruct H as (HX & HH & HZ & HN & _).
  by rewrite !lookup_insert_ne, lookup_empty.
Qed.

Lemma applyGate_unknown (s : state) (name : string) :
  name ∉ gateNames → applyGate s (Some name) = s.
Proof.
  intros H. unfold applyGate, tableLookup. simpl.
  rewrite (gateTable_unknown name H). simpl.
  destruct (negb (String.eqb name EmptyString)); simpl; [|done].
  destruct (String.eqb_spec s "DECOHERED"); by subst.
Qed.

(** The loop of [buildStepStates] appends [run] to the array and leaves the
    last state visited in [current]. *)
Lemma foldl_stepLoop (gates : list gate) (states : list state) (current : state) :
  foldl stepLoop (states, current) gates
  = (states ++ run applyGate current gates,
     List.last (run applyGate current gates) current).
Proof.
  revert states current.
  induction gates as [|g rest IH]; intros states current.
  - simpl. by rewrite app_nil_r.
  - cbn [foldl]. unfold stepLoop at 2. cbn [fst snd]. rewrite IH.
    cbn [run]. rewrite <- app_assoc. cbn [app]. f_equal.
    symmetry. apply last_cons_default.
Qed.

Lemma buildStepStates_run (s0 : state) (gates : list gate) :
  buildStepStates s0 gates = seed s0 :: run applyGate (seed s0) gates.
Proof. unfold buildStepStates. cbv zeta. by rewrite foldl_stepLoop. Qed.

Lemma length_run apply (current : state) (gates : list gate) :
  length (run apply current gates) = length gates.
Proof.
  revert current. induction gates as [|g rest IH]; intros current; simpl; [done|].
  by rewrite IH.
Qed.

Lemma run_decohered (gates : list gate) :
  run applyGate "DECOHERED" gates = replicate (length gates) "DECOHERED".
Proof.
  induction gates as [|g rest IH]; simpl; [done|].
  by rewrite applyGate_decohered, IH.
Qed.

(** Along [current :: run current gates], a decohered element is followed by
    decohered elements only. *)
Lemma run_monotone (gates : list gate) (current : state) (i j : nat) :
  (current :: run applyGate current gates) !! i = Some "DECOHERED" →
  (i < j)%nat →
  (j < S (length gates))%nat →
  (current :: run applyGate current gates) !! j = Some "DECOHERED".
Proof.
  revert current i j.
  induction gates as [|g rest IH]; intros current i j Hi Hij Hj.
  - simpl in Hj. lia.
  - destruct i as [|i'].
    + simpl in Hi. injection Hi as ->.
      rewrite run_decohered. change ("DECOHERED" :: replicate _ _)
        with (replicate (S (length (g :: rest))) "DECOHERED").
      apply lookup_replicate_2. simpl in *. lia.
    + destruct j as [|j']; [lia|].
      cbn [run] in Hi |- *. rewrite lookup_cons in Hi |- *.
      apply (IH _ i' j'); [done|lia|simpl in Hj; lia].
Qed.

Lemma run_step (gates : list gate) (current : state) (i : nat) (g : gate) :
  gates !! i = Some g →
  ∃ prev, (current :: run applyGate current gates) !! i = Some prev
          ∧ (current :: run applyGate current gates) !! S i
            = Some (applyGate prev g).
Proof.
  revert current i.
  induction gates as [|g' rest IH]; intros current i Hg; [done|].
  destruct i as [|i'].
  - injection Hg as ->. by exists current.
  - cbn [run]. apply (IH (applyGate current g') i' Hg).
Qed.

Lemma seed_cases (s0 : state) :
  (s0 = "ONE" ∧ seed s0 = "ONE") ∨ (s0 ≠ "ONE" ∧ seed s0 = "ZERO").
Proof. unfold seed. destruct (String.eqb_spec s0 "ONE"); auto. Qed.

(** C1. Involution law: applying any of the gates X, H, Z twice to any of the
    states ZERO, ONE, PLUS, MINUS gives the state back. *)
Theorem involution_law (g : string) (s : state) :
  g ∈ ["X"; "H"; "Z"] →
  s ∈ coherentStates →
  applyGate (applyGate s (Some g)) (Some g) = s.
Proof.
  unfold coherentStates. rewrite !elem_of_cons, !elem_of_nil.
  intros [-> | [-> | [-> | []]]] [-> | [-> | [-> | [-> | []]]]];
    vm_compute; reflexivity.
Qed.

Lemma involution_law_witness :
  "H" ∈ ["X"; "H"; "Z"] ∧ "MINUS" ∈ coherentStates
  ∧ applyGate (applyGate "MINUS" (Some "H")) (Some "H") = "MINUS".
Proof.
  assert (Hg : "H" ∈ ["X"; "H"; "Z"]) by (right; left).
  assert (Hs : "MINUS" ∈ coherentStates) by (do 3 right; left).
  exact (conj Hg (conj Hs (involution_law "H" "MINUS" Hg Hs))).
Defined.

(** C2. DECOHERED is absorbing: applyGate maps DECOHERED to DECOHERED for
    every gate slot (null, the empty string, a table gate or an unknown
    name), and in every trajectory of buildStepStates an element equal to
    DECOHERED is followed by DECOHERED elements only. *)
Theorem decohered_absorbing :
  (∀ g : gate, applyGate "DECOHERED" g = "DECOHERED")
  ∧ (∀ (s0 : state) (gates : list gate) (i j : nat),
       buildStepStates s0 gates !! i = Some "DECOHERED" →
       (i < j)%nat →
       (j < length (buildStepStates s0 gates))%nat →
       buildStepStates s0 gates !! j = Some "DECOHERED").
Proof.
  split; [exact applyGate_decohered|].
  intros s0 gates i j. rewrite buildStepStates_run. cbn [length].
  rewrite length_run. apply run_monotone.
Qed.

Lemma decohered_absorbing_witness :
  buildStepStates "ONE" [Some "NOISE"; Some "X"; Some "H"] !! 1%nat = Some "DECOHERED"
  ∧ (1 < 3)%nat
  ∧ (3 < length (buildStepStates "ONE" [Some "NOISE"; Some "X"; Some "H"]))%nat
  ∧ buildStepStates "ONE" [Some "NOISE"; Some "X"; Some "H"] !! 3%nat = Some "DECOHERED".
Proof.
  assert (H1 : buildStepStates "ONE" [Some "NOISE"; Some "X"; Some "H"] !! 1%nat
               = Some "DECOHERED") by (vm_compute; reflexivity).
  assert (H2 : (1 < 3)%nat) by lia.
  assert (H3 : (3 < length (buildStepStates "ONE" [Some "NOISE"; Some "X"; Some "H"]))%nat)
    by (vm_compute; lia).
  exact (conj H1 (conj H2 (conj H3
           (proj2 decohered_absorbing "ONE" [Some "NOISE"; Some "X"; Some "H"]
                  1%nat 3%nat H1 H2 H3)))).
Defined.

(** C3. Trajectory length: buildStepStates returns length(gates) + 1 states.
    Element 0 is the seed, which is the initial state whenever that is ZERO or
    ONE, and element i + 1 is applyGate of element i and gate i. *)
Theorem trajectory_length (s0 : state) (gates : list gate) :
  length (buildStepStates s0 gates) = (length gates + 1)%nat
  ∧ buildStepStates s0 gates !! 0%nat = Some (seed s0)
  ∧ (s0 ∈ ["ZERO"; "ONE"] → buildStepStates s0 gates !! 0%nat = Some s0)
  ∧ (∀ (i : nat) (g : gate),
       gates !! i = Some g →
       ∃ prev, buildStepStates s0 gates !! i = Some prev
               ∧ buildStepStates s0 gates !! S i = Some (applyGate prev g)).
Proof.
  rewrite buildStepStates_run. repeat split.
  - cbn [length]. rewrite length_run. lia.
  - rewrite !elem_of_cons, elem_of_nil. by intros [-> | [-> | []]].
  - intros i g. apply run_step.
Qed.

Lemma trajectory_length_witness :
  "ONE" ∈ ["ZERO"; "ONE"]
  ∧ buildStepStates "ONE" [Some "H"; None] !! 0%nat = Some "ONE"
  ∧ [Some "H"; None] !! 1%nat = Some (None : gate)
  ∧ ∃ prev, buildStepStates "ONE" [Some "H"; None] !! 1%nat = Some prev
            ∧ buildStepStates "ONE" [Some "H"; None] !! 2%nat
              = Some (applyGate prev None).
Proof.
  assert (Hs : "ONE" ∈ ["ZERO"; "ONE"]) by (right; left).
  assert (Hg : [Some "H"; None] !! 1%nat = Some (None : gate)) by reflexivity.
  pose proof (trajectory_length "ONE" [Some "H"; None]) as (_ & _ & H0 & Hstep).
  exact (conj Hs (conj (H0 Hs) (conj Hg (Hstep 1%nat None Hg)))).
Defined.

(** Noise totality and the other two end-to-end scenarios of the spec. *)
Example noise_totality (s : state) :
  s ∈ coherentStates → applyGate s (Some "NOISE") = "DECOHERED".
Proof.
  unfold coherentStates. rewrite !elem_of_cons, elem_of_nil.
  intros [-> | [-> | [-> | [-> | []]]]]; vm_compute; reflexivity.
Qed.

Example scenario_B :
  buildStepStates "ZERO" [Some "X"; Some "X"; None; None]
  = ["ZERO"; "ONE"; "ZERO"; "ZERO"; "ZERO"].
Proof. vm_compute. reflexivity. Qed.

Example scenario_C :
  buildStepStates "ONE" [Some "NOISE"; Some "X"; Some "H"; Some "Z"]
  = ["ONE"; "DECOHERED"; "DECOHERED"; "DECOHERED"; "DECOHERED"]
  ∧ ∀ r : rng, measureState "DECOHERED" r = ("yellow", r).
Proof. split; [vm_compute; reflexivity|done]. Qed.

(** C5. End-to-end scenario A: from ZERO the gates H, Z, H and an empty slot
    give the trajectory ZERO, PLUS, MINUS, ONE, ONE, and measuring ONE
    returns red whatever the randomness source holds, without drawing. *)
Theorem scenario_A :
  buildStepStates "ZERO" [Some "H"; Some "Z"; Some "H"; None]
  = ["ZERO"; "PLUS"; "MINUS"; "ONE"; "ONE"]
  ∧ (∀ r : rng, measureState "ONE" r = ("red", r))
  ∧ (∀ r : rng,
       fst (buildColumnData [Some "H"; Some "Z"; Some "H"; None] r)
       = ColumnData [Some "H"; Some "Z"; Some "H"; None]
                    ["ZERO"; "PLUS"; "MINUS"; "ONE"; "ONE"] "ONE" "red").
Proof. repeat split; vm_compute; reflexivity. Qed.

(** C8. Defensive default: on each of ZERO, ONE, PLUS, MINUS a gate name
    without a row in the table leaves the state unchanged; an absent gate
    leaves every state unchanged; buildStepStates starts from ZERO for every
    initial state other than exactly ONE.  applyGate is a total function, so
    no input raises. *)
Theorem defensive_default :
  (∀ (s : state) (name : string),
     s ∈ coherentStates → name ∉ gateNames → applyGate s (Some name) = s)
  ∧ (∀ s : state, applyGate s None = s)
  ∧ (∀ (s0 : state) (gates : list gate),
       s0 ≠ "ONE" →
       buildStepStates s0 gates !! 0%nat = Some "ZERO"
       ∧ buildStepStates s0 gates = buildStepStates "ZERO" gates)
  ∧ (∀ gates : list gate, buildStepStates "ONE" gates !! 0%nat = Some "ONE").
Proof.
  repeat split.
  - intros s name _. apply applyGate_unknown.
  - destruct (seed_cases s0) as [[? _] | [_ E]]; [done|].
    by rewrite buildStepStates_run, E.
  - destruct (seed_cases s0) as [[? _] | [_ E]]; [done|].
    by rewrite !buildStepStates_run, E.
  - intros gates. by rewrite buildStepStates_run.
Qed.

Lemma defensive_default_witness :
  ("PLUS" ∈ coherentStates) ∧ ("Y" ∉ gateNames) ∧ ("PLUS" ≠ "ONE")
  ∧ applyGate "PLUS" (Some "Y") = "PLUS"
  ∧ buildStepStates "PLUS" [Some "Y"; Some "X"] !! 0%nat = Some "ZERO"
  ∧ buildStepStates "PLUS" [Some "Y"; Some "X"]
    = buildStepStates "ZERO" [Some "Y"; Some "X"].
Proof.
  assert (Hs : "PLUS" ∈ coherentStates) by (do 2 right; left).
  assert (Hg : "Y" ∉ gateNames).
  { unfold gateNames. rewrite !not_elem_of_cons. repeat split; try discriminate.
    apply not_elem_of_nil. }
  assert (Hn : "PLUS" ≠ "ONE") by discriminate.
  pose proof defensive_default as (Hunknown & _ & Hseed & _).
  exact (conj Hs (conj Hg (conj Hn (conj (Hunknown "PLUS" "Y" Hs Hg)
           (Hseed "PLUS" [Some "Y"; Some "X"] Hn))))).
Defined.

End Transition.

(** ** Measurement *)

Section Measurement.

Import Quantum.

Lemma below_half_spec (d : draw) : below_half d = true ↔ (draw_val d < (1 # 2))%Q.
Proof.
  unfold below_half. rewrite negb_true_iff.
  split.
  - intros H. apply Qnot_le_lt. intros Hle.
    apply Qle_bool_iff in Hle. congruence.
  - intros H. destruct (Qle_bool (1 # 2) (draw_val d)) eqn:E; [|done].
    apply Qle_bool_iff in E. exfalso. apply (Qlt_not_le _ _ H E).
Qed.

Lemma measureState_other (s : state) (r : rng) :
  s ∉ allStates → measureState s r = ("blue", r).
Proof.
  unfold allStates, coherentStates. cbn [app].
  rewrite !not_elem_of_cons. intros (H0 & H1 & HP & HM & HD & _).
  unfold measureState.
  apply String.eqb_neq in H0, H1, HP, HM, HD.
  by rewrite H0, H1, HP, HM, HD.
Qed.

(** C4. Measurement contract: ZERO gives blue, ONE red, DECOHERED yellow and
    any string outside the five states blue, all with the randomness source
    untouched; PLUS and MINUS make exactly one draw and give blue when it is
    below 0.5 and red otherwise. *)
Theorem measurement_contract (r : rng) :
  measureState "ZERO" r = ("blue", r)
  ∧ measureState "ONE" r = ("red", r)
  ∧ measureState "DECOHERED" r = ("yellow", r)
  ∧ (∀ s : state, s ∉ allStates → measureState s r = ("blue", r))
  ∧ (∀ s : state, s ∈ ["PLUS"; "MINUS"] →
       measureState s r
       = (if below_half (source r (drawn r)) then "blue" else "red", consumed 1 r)
       ∧ fst (measureState s r) ∈ ["blue"; "red"]).
Proof.
  split; [done|]. split; [done|]. split; [done|].
  split; [intros s; apply measureState_other|].
  intros s Hs.
  assert (E : measureState s r
              = (if below_half (source r (drawn r)) then "blue" else "red",
                 consumed 1 r)).
  { revert Hs. rewrite !elem_of_cons, elem_of_nil. by intros [-> | [-> | []]]. }
  split; [exact E|]. rewrite E. cbn [fst].
  destruct (below_half (source r (drawn r))); [left | right; left].
Qed.

Lemma measurement_contract_witness :
  ("GREEN" ∉ allStates) ∧ ("MINUS" ∈ ["PLUS"; "MINUS"])
  ∧ measureState "GREEN" (Rng src1 7) = ("blue", Rng src1 7)
  ∧ measureState "MINUS" (Rng src1 7) = ("red", Rng src1 8).
Proof.
  assert (Ho : "GREEN" ∉ allStates).
  { unfold allStates, coherentStates. cbn [app]. rewrite !not_elem_of_cons.
    repeat split; try discriminate. apply not_elem_of_nil. }
  assert (Hs : "MINUS" ∈ ["PLUS"; "MINUS"]) by (right; left).
  pose proof (measurement_contract (Rng src1 7)) as (_ & _ & _ & Hother & Hsup).
  exact (conj Ho (conj Hs (conj (Hother "GREEN" Ho) (proj1 (Hsup "MINUS" Hs))))).
Defined.

End Measurement.

(** ** The two trajectory builders *)

Section Builders.

Lemma last_cons_Some {A} (x : A) (l : list A) : last (x :: l) = Some (List.last l x).
Proof.
  revert x. induction l as [|y l IH]; intros x; [done|].
  change (last (x :: y :: l)) with (last (y :: l)).
  by rewrite IH, last_cons_default.
Qed.

Lemma App_applyGate (s : state) (g : gate) : App.applyGate s g = Quantum.applyGate s g.
Proof. reflexivity. Qed.

Lemma App_foldl_stepLoop (gates : list gate) (acc : list state * state) :
  foldl App.stepLoop acc gates = foldl Quantum.stepLoop acc gates.
Proof.
  revert acc. induction gates as [|g rest IH]; intros acc; [done|].
  exact (IH (App.stepLoop acc g)).
Qed.

(** C7. The circuit view's buildStepStates is the shared buildStepStates with
    a duplicate of its last element appended: its length is length(gates) + 2
    and its last two elements are the same state. *)
Theorem builders_refinement (s0 : state) (gates : list gate) :
  App.buildStepStates s0 gates = withDetector (Quantum.buildStepStates s0 gates)
  ∧ length (App.buildStepStates s0 gates) = (length gates + 2)%nat
  ∧ ∃ final : state,
      last (Quantum.buildStepStates s0 gates) = Some final
      ∧ App.buildStepStates s0 gates !! length gates = Some final
      ∧ App.buildStepStates s0 gates !! S (length gates) = Some final.
Proof.
  assert (E : App.buildStepStates s0 gates
              = Quantum.buildStepStates s0 gates
                ++ [List.last (run Quantum.applyGate (Quantum.seed s0) gates)
                              (Quantum.seed s0)]).
  { unfold App.buildStepStates. cbv zeta.
    rewrite App_foldl_stepLoop, foldl_stepLoop, buildStepStates_run. done. }
  assert (L : last (Quantum.buildStepStates s0 gates)
              = Some (List.last (run Quantum.applyGate (Quantum.seed s0) gates)
                                (Quantum.seed s0))).
  { rewrite buildStepStates_run. apply last_cons_Some. }
  assert (Len : length (Quantum.buildStepStates s0 gates) = S (length gates)).
  { rewrite buildStepStates_run. cbn [length]. by rewrite length_run. }
  split; [|split].
  - unfold withDetector. by rewrite L, E.
  - rewrite E, length_app, Len. simpl. lia.
  - eexists. split; [exact L|]. rewrite E. split.
    + rewrite lookup_app_l by lia.
      rewrite <- L, last_lookup, Len. done.
    + rewrite lookup_app_r by lia. by rewrite Len, Nat.sub_diag.
Qed.

End Builders.

(** ** Parsing and formatting gate strings *)

Section ParseFormat.

Import Quantum.

Lemma concat_empty_cons (x : string) (l : list string) :
  String.concat EmptyString (x :: l) = x +:+ String.concat EmptyString l.
Proof.
  destruct l as [|y l]; simpl.
  - induction x as [|c x IH]; [done|].
    change (String c x = String c (x +:+ EmptyString)). by f_equal.
  - done.
Qed.

Lemma gatesToString_absent (k : nat) : gatesToString (replicate k None) = EmptyString.
Proof.
  unfold gatesToString. induction k as [|k IH]; [done|]. exact IH.
Qed.

(** What the formatter writes for a table gate is one upper-case letter that
    the parser maps back to the gate. *)
Lemma gate_letter (name : string) :
  name ∈ gateNames →
  ∃ c : ascii,
    truthy (Some name) = true
    ∧ gateLetter (Some name) = Some (String c EmptyString)
    ∧ upper_ascii c = c
    ∧ validGates !! String c EmptyString = Some name.
Proof.
  unfold gateNames. rewrite !elem_of_cons, elem_of_nil.
  intros [-> | [-> | [-> | [-> | []]]]];
    [exists "X"%char | exists "H"%char | exists "Z"%char | exists "N"%char];
    repeat split; vm_compute; reflexivity.
Qed.

Lemma gatesToString_cons (name : string) (c : ascii) (rest : list gate) :
  truthy (Some name) = true →
  gateLetter (Some name) = Some (String c EmptyString) →
  gatesToString (Some name :: rest) = String c (gatesToString rest).
Proof.
  intros Ht Hl. unfold gatesToString, join. cbn [List.filter]. rewrite Ht.
  rewrite fmap_cons, Hl, fmap_cons. cbn [default].
  by rewrite concat_empty_cons.
Qed.

Lemma parse_format_fold (gs : list string) (k n : nat) (acc : list gate) :
  Forall (λ name, name ∈ gateNames) gs →
  (length acc + length gs ≤ n)%nat →
  foldl (parseStep n) acc
        (list_ascii_of_string
           (toUpperCase (gatesToString ((Some <$> gs) ++ replicate k None))))
  = acc ++ (Some <$> gs).
Proof.
  intros Hgs. revert acc.
  induction Hgs as [|name gs Hname _ IH]; intros acc Hlen.
  - cbn [fmap list_fmap app]. rewrite gatesToString_absent. simpl.
    by rewrite app_nil_r.
  - destruct (gate_letter name Hname) as (c & Ht & Hl & Hu & Hv).
    rewrite fmap_cons. cbn [app]. rewrite (gatesToString_cons name c _ Ht Hl).
    cbn [toUpperCase list_ascii_of_string foldl]. rewrite Hu.
    assert (Hstep : parseStep n acc c = acc ++ [Some name]).
    { unfold parseStep. rewrite Hv, Ht.
      cbn [length] in Hlen.
      assert (Hlt : (length acc <? n)%nat = true) by (apply Nat.ltb_lt; lia).
      by rewrite Hlt. }
    rewrite Hstep, IH.
    + by rewrite <- app_assoc.
    + rewrite length_app. cbn [length] in *. lia.
Qed.

(** The padding loop stops with the array filled up to [numGates]; [fuel]
    turns are enough when [numGates - length gates ≤ fuel]. *)
Lemma padLoop_replicate (fuel n : nat) (gates : list gate) :
  (n - length gates ≤ fuel)%nat →
  padLoop fuel n gates = gates ++ replicate (n - length gates) None.
Proof.
  revert gates. induction fuel as [|fuel IH]; intros gates Hfuel.
  - replace (n - length gates)%nat with 0%nat by lia. simpl. by rewrite app_nil_r.
  - cbn [padLoop]. destruct (Nat.ltb_spec (length gates) n) as [Hlt | Hge].
    + rewrite IH by (rewrite length_app; simpl; lia).
      rewrite length_app. cbn [length].
      replace (n - length gates)%nat with (S (n - (length gates + 1)))%nat by lia.
      by rewrite <- app_assoc.
    + replace (n - length gates)%nat with 0%nat by lia. simpl. by rewrite app_nil_r.
Qed.

(** A gate sequence without a gap is a run of gates followed by a run of
    absent slots. *)
Lemma noGap_split (seq : list gate) :
  isGateSequence seq →
  noGapBeforeLast seq →
  ∃ (gs : list string) (k : nat),
    seq = (Some <$> gs) ++ replicate k None
    ∧ Forall (λ name, name ∈ gateNames) gs.
Proof.
  intros Hseq. induction Hseq as [|g rest Hg _ IH]; intros Hgap.
  - by exists [], 0%nat.
  - destruct Hg as [-> | (name & -> & Hname)].
    + exists [], (S (length rest)). split; [|constructor].
      cbn [fmap list_fmap app replicate]. f_equal.
      apply list_eq. intros j.
      destruct (rest !! j) as [[name|]|] eqn:E.
      * exfalso. by apply (Hgap 0%nat (S j) name); [lia| |].
      * symmetry. apply lookup_replicate_2. by apply lookup_lt_Some in E.
      * apply lookup_ge_None in E. symmetry.
        apply lookup_replicate_None. lia.
    + destruct IH as (gs & k & -> & Hgs).
      { intros i j n' Hij Hj. apply (Hgap (S i) (S j) n'); [lia|done]. }
      exists (name :: gs), k. split; [done|by constructor].
Qed.

(** C6. Parse/format round trip: formatting the parse of XHZN at length 4
    gives XHZN back; parsing xHz!!Q at length 4 gives X, H, Z and one absent
    slot; and for every gate sequence with no absent slot before a populated
    one, parsing its formatted text at the sequence's length reproduces it. *)
Theorem parse_format_round_trip :
  gatesToString (parseGateString (Some "XHZN") 4) = "XHZN"
  ∧ parseGateString (Some "xHz!!Q") 4 = [Some "X"; Some "H"; Some "Z"; None]
  ∧ (∀ seq : list gate,
       isGateSequence seq →
       noGapBeforeLast seq →
       parseGateString (Some (gatesToString seq)) (length seq) = seq).
Proof.
  split; [vm_compute; reflexivity|]. split; [vm_compute; reflexivity|].
  intros seq Hseq Hgap.
  destruct (noGap_split seq Hseq Hgap) as (gs & k & -> & Hgs).
  unfold parseGateString. cbv zeta.
  assert (Htext : (if truthy (Some (gatesToString ((Some <$> gs) ++ replicate k None)))
                   then default EmptyString (Some (gatesToString ((Some <$> gs) ++ replicate k None)))
                   else EmptyString)
                  = gatesToString ((Some <$> gs) ++ replicate k None)).
  { cbn [default truthy]. by destruct (gatesToString _). }
  rewrite Htext, parse_format_fold;
    [|done|rewrite length_app, length_fmap; simpl; lia].
  cbn [app]. rewrite padLoop_replicate by lia.
  rewrite length_app, length_fmap, length_replicate.
  by replace (length gs + k - length gs)%nat with k by lia.
Qed.

End ParseFormat.

Lemma parse_format_round_trip_witness :
  isGateSequence [Some "Z"; Some "NOISE"; None; None]
  ∧ noGapBeforeLast [Some "Z"; Some "NOISE"; None; None]
  ∧ Quantum.parseGateString
      (Some (Quantum.gatesToString [Some "Z"; Some "NOISE"; None; None]))
      (length [Some "Z"; Some "NOISE"; None; None])
    = [Some "Z"; Some "NOISE"; None; None].
Proof.
  assert (Hseq : isGateSequence [Some "Z"; Some "NOISE"; None; None]).
  { unfold isGateSequence, gateNames.
    constructor; [right; exists "Z"; split; [done|do 2 right; left]|].
    constructor; [right; exists "NOISE"; split; [done|do 3 right; left]|].
    constructor; [by left|]. constructor; [by left|]. constructor. }
  assert (Hgap : noGapBeforeLast [Some "Z"; Some "NOISE"; None; None]).
  { intros i j name Hij Hj.
    destruct j as [|[|[|[|j]]]]; try discriminate;
      destruct i as [|[|i]]; try discriminate; lia. }
  exact (conj Hseq (conj Hgap
           (proj2 (proj2 parse_format_round_trip)
                  [Some "Z"; Some "NOISE"; None; None] Hseq Hgap))).
Defined.

(** Whatever the text, the parser returns [numGates] slots: table gates
    first, absent slots after them.  So the round trip can only hold for the
    sequences of the theorem above. *)
Lemma validGates_values (key name : string) :
  Quantum.validGates !! key = Some name → name ∈ gateNames ∧ truthy (Some name) = true.
Proof.
  unfold Quantum.validGates, gateNames. intros H.
  repeat (rewrite lookup_insert in H; case_decide;
          [injection H as <-; split; [rewrite !elem_of_cons; tauto|done]|]).
  by rewrite lookup_empty in H.
Qed.

Lemma parseStep_gates (n : nat) (gs : list string) (ch : ascii) :
  Forall (λ name, name ∈ gateNames) gs →
  ∃ gs', Quantum.parseStep n (Some <$> gs) ch = Some <$> gs'
         ∧ Forall (λ name, name ∈ gateNames) gs'.
Proof.
  intros Hgs. unfold Quantum.parseStep. cbv zeta.
  destruct (Quantum.validGates !! String ch EmptyString) as [name|] eqn:E;
    [|by exists gs].
  destruct (truthy (Some name) && _); [|by exists gs].
  exists (gs ++ [name]). split; [by rewrite fmap_app|].
  apply Forall_app. split; [done|]. constructor; [|constructor].
  by destruct (validGates_values _ _ E).
Qed.

Lemma parseStep_length (n : nat) (acc : list gate) (ch : ascii) :
  (length acc ≤ n)%nat → (length (Quantum.parseStep n acc ch) ≤ n)%nat.
Proof.
  intros Hlen. unfold Quantum.parseStep. cbv zeta.
  destruct (truthy _); [|done]. cbn [andb].
  destruct (Nat.ltb_spec (length acc) n); [|done].
  rewrite length_app. simpl. lia.
Qed.

Lemma parse_fold_gates (n : nat) (chars : list ascii) (gs : list string) :
  Forall (λ name, name ∈ gateNames) gs →
  (length gs ≤ n)%nat →
  ∃ gs', foldl (Quantum.parseStep n) (Some <$> gs) chars = Some <$> gs'
         ∧ Forall (λ name, name ∈ gateNames) gs'
         ∧ (length gs' ≤ n)%nat.
Proof.
  revert gs. induction chars as [|ch chars IH]; intros gs Hgs Hlen.
  - by exists gs.
  - cbn [foldl]. destruct (parseStep_gates n gs ch Hgs) as (gs1 & E & Hgs1).
    pose proof (parseStep_length n (Some <$> gs) ch) as Hl.
    rewrite E, !length_fmap in Hl. rewrite E. apply IH; [done|lia].
Qed.

Lemma gates_then_absent_shape (gs : list string) (k : nat) :
  Forall (λ name, name ∈ gateNames) gs →
  isGateSequence ((Some <$> gs) ++ replicate k None)
  ∧ noGapBeforeLast ((Some <$> gs) ++ replicate k None).
Proof.
  intros Hgs. split.
  - apply Forall_app. split.
    + apply Forall_fmap. eapply Forall_impl; [exact Hgs|].
      intros name Hname. right. by exists name.
    + apply Forall_replicate. by left.
  - intros i j name Hij Hj Hi.
    destruct (decide (j < length gs)%nat) as [Hlt | Hge].
    + rewrite lookup_app_l in Hi by (rewrite length_fmap; lia).
      rewrite list_lookup_fmap in Hi. by destruct (gs !! i).
    + rewrite lookup_app_r in Hj by (rewrite length_fmap; lia).
      apply lookup_replicate in Hj as [? _]. discriminate.
Qed.

Lemma parseGateString_shape (str : option string) (numGates : nat) :
  length (Quantum.parseGateString str numGates) = numGates
  ∧ isGateSequence (Quantum.parseGateString str numGates)
  ∧ noGapBeforeLast (Quantum.parseGateString str numGates).
Proof.
  unfold Quantum.parseGateString. cbv zeta.
  destruct (parse_fold_gates numGates
              (list_ascii_of_string
                 (toUpperCase (if truthy str then default EmptyString str
                                        else EmptyString)))
              [] (List.Forall_nil _)) as (gs & E & Hgs & Hlen); [simpl; lia|].
  change (Some <$> []) with (@nil gate) in E. rewrite E.
  rewrite padLoop_replicate by lia. rewrite length_fmap. split.
  - rewrite length_app, length_fmap, length_replicate. lia.
  - by apply gates_then_absent_shape.
Qed.

Lemma round_trip_only_if (seq : list gate) :
  Quantum.parseGateString (Some (Quantum.gatesToString seq)) (length seq) = seq →
  isGateSequence seq ∧ noGapBeforeLast seq.
Proof.
  intros E.
  pose proof (parseGateString_shape (Some (Quantum.gatesToString seq)) (length seq))
    as (_ & Hseq & Hgap).
  by rewrite E in Hseq, Hgap.
Qed.

(** A gap is not restored: the populated slots move to the front. *)
Example round_trip_needs_no_gap :
  Quantum.parseGateString (Some (Quantum.gatesToString [None; Some "X"])) 2
  = [Some "X"; None].
Proof. vm_compute. reflexivity. Qed.

(** ** Random circuits and the fixture grid *)

Section Fixture.

Import Quantum.

Lemma Rand_bind_run {A B} (m : Rand A) (f : A → Rand B) (r : rng) :
  (m ≫= f) r = f (fst (m r)) (snd (m r)).
Proof. unfold mbind, Rand_bind. by destruct (m r). Qed.

Lemma draw_range_facts (d : draw) :
  (draw_mant d < 2 ^ 53)%N
  ∧ (2 ^ 53 <= 2 ^ N.pos (draw_shift d))%N
  ∧ ∃ E : N, (2 ^ N.pos (draw_shift d))%N = (8 * E)%N.
Proof.
  destruct d as [m s H]. cbn [draw_mant draw_shift].
  apply andb_prop in H as [H Hhi]. apply andb_prop in H as [Hm Hs].
  apply N.ltb_lt in Hm. apply Pos.leb_le in Hs.
  assert (Hs' : (53 <= N.pos s)%N) by lia.
  split; [done|]. split; [by apply N.pow_le_mono_r|].
  exists (2 ^ (N.pos s - 3))%N. change 8%N with (2 ^ 3)%N.
  rewrite <- N.pow_add_r. f_equal. lia.
Qed.

Lemma pow2_pos_Z (s : positive) : Z.pos (2 ^ s) = Z.of_N (2 ^ N.pos s).
Proof. rewrite Pos2Z.inj_pow, N2Z.inj_pow. reflexivity. Qed.

Lemma draw_bounds (d : draw) : (0 <= draw_val d)%Q ∧ (draw_val d < 1)%Q.
Proof.
  destruct (draw_range_facts d) as (Hm & Hs & _).
  unfold draw_val, Qle, Qlt. cbn [Qnum Qden]. rewrite pow2_pos_Z. lia.
Qed.

(** What rounding does to a numerator below [2^56]: it drops [k <= 3] bits,
    to the multiple of [2^k] just below or, only when the dropped bits are
    at least half of [2^k], just above. *)
Lemma round53_cases (p : N) :
  (p < 2 ^ 56)%N →
  ∃ k : N,
    (k = 0%N ∨ k = 1%N ∨ k = 2%N ∨ k = 3%N)
    ∧ ((round53 p = (p / 2 ^ k * 2 ^ k)%N
        ∧ (2 * (p mod 2 ^ k) <= 2 ^ k)%N)
       ∨ (round53 p = ((p / 2 ^ k + 1) * 2 ^ k)%N
          ∧ (2 ^ k <= 2 * (p mod 2 ^ k))%N)).
Proof.
  intros Hp. unfold round53. cbv zeta.
  assert (Hlog : (N.log2 p < 56)%N).
  { destruct (N.eq_dec p 0%N) as [-> | Hne]; [done|].
    apply N.log2_lt_pow2; [lia|done]. }
  set (k := (N.log2 p + 1 - 53)%N).
  assert (Hk : k = 0%N ∨ k = 1%N ∨ k = 2%N ∨ k = 3%N) by lia.
  exists k. split; [exact Hk|].
  destruct (N.eqb_spec k 0%N) as [-> | Hk0].
  - left. change (2 ^ 0)%N with 1%N.
    rewrite N.div_1_r, N.mul_1_r, N.mod_1_r. split; [done|lia].
  - assert (Hhalf : (2 ^ k = 2 * 2 ^ (k - 1))%N).
    { rewrite <- N.pow_succ_r'. f_equal. lia. }
    destruct (_ || _) eqn:Hround.
    + right. split; [done|]. apply orb_prop in Hround as [H | H].
      * apply N.ltb_lt in H. lia.
      * apply andb_prop in H as [H _]. apply N.eqb_eq in H. lia.
    + left. split; [done|]. apply orb_false_elim in Hround as [H _].
      apply N.ltb_ge in H. lia.
Qed.

(** Rounding moves a numerator by at most 4, and never across a multiple
    of 8. *)
Lemma round53_near (p J : N) :
  (p < 2 ^ 56)%N →
  (round53 p <= p + 4)%N ∧ (p <= round53 p + 4)%N
  ∧ ((p < 8 * J)%N → (round53 p <= 8 * J)%N)
  ∧ ((8 * J <= p)%N → (8 * J <= round53 p)%N).
Proof.
  intros Hp. destruct (round53_cases p Hp) as (k & Hk & Hr).
  destruct Hk as [-> | [-> | [-> | ->]]];
    [change (2 ^ 0)%N with 1%N in Hr | change (2 ^ 1)%N with 2%N in Hr
     | change (2 ^ 2)%N with 4%N in Hr | change (2 ^ 3)%N with 8%N in Hr];
    destruct Hr as [[-> Hrem] | [-> Hrem]];
    match goal with
    | |- context [(p / ?c)%N] =>
        pose proof (N.div_mod p c ltac:(discriminate));
        pose proof (N.mod_lt p c ltac:(discriminate));
        generalize dependent (p / c)%N; generalize dependent (p mod c)%N
    end; intros; lia.
Qed.

Lemma floor_scaled_5 (d : draw) :
  ∃ R : N,
    floor_scaled d 5 = N.to_nat (R / 2 ^ N.pos (draw_shift d))
    ∧ ((R <= 5 * draw_mant d + 4)%N ∧ (5 * draw_mant d <= R + 4)%N)
    ∧ ∀ i : N,
        ((5 * draw_mant d < i * 2 ^ N.pos (draw_shift d))%N →
         (R <= i * 2 ^ N.pos (draw_shift d))%N)
        ∧ ((i * 2 ^ N.pos (draw_shift d) <= 5 * draw_mant d)%N →
           (i * 2 ^ N.pos (draw_shift d) <= R)%N).
Proof.
  destruct (draw_range_facts d) as (Hm & Hs & E & HE).
  exists (round53 (draw_mant d * N.of_nat 5)). split; [done|].
  assert (Hp : (draw_mant d * N.of_nat 5 < 2 ^ 56)%N).
  { change (2 ^ 56)%N with (8 * 2 ^ 53)%N. lia. }
  split.
  - destruct (round53_near _ 0%N Hp) as (H1 & H2 & _). lia.
  - intros i. destruct (round53_near _ (i * E)%N Hp) as (_ & _ & H3 & H4).
    rewrite HE. split; intros H; [apply N.le_trans with (8 * (i * E))%N
                                 | apply N.le_trans with (8 * (i * E))%N]; lia.
Qed.

(** [Math.floor(Math.random() * 5)] is an index of [availableGates]. *)
Lemma floor_scaled_lt (d : draw) : (floor_scaled d 5 < 5)%nat.
Proof.
  destruct (draw_range_facts d) as (Hm & Hs & _).
  destruct (floor_scaled_5 d) as (R & -> & [Hup _] & _).
  assert (R / 2 ^ N.pos (draw_shift d) < 5)%N; [|lia].
  apply N.Div0.div_lt_upper_bound. lia.
Qed.

Lemma pick_in_range (d : draw) :
  ∃ g : gate, availableGates !! floor_scaled d (length availableGates) = Some g.
Proof.
  apply lookup_lt_is_Some. apply floor_scaled_lt.
Qed.

Lemma pickGate_run (r : rng) :
  fst (pickGate r) ∈ availableGates ∧ snd (pickGate r) = consumed 1 r.
Proof.
  unfold pickGate. rewrite Rand_bind_run. cbn [random fst snd mret Rand_ret].
  destruct (pick_in_range (source r (drawn r))) as [g Hg].
  rewrite Hg. cbn [default]. split; [|done].
  by apply list_elem_of_lookup_2 in Hg.
Qed.

Lemma consumed_add (n m : nat) (r : rng) :
  consumed n (consumed m r) = consumed (n + m) r.
Proof. unfold consumed. cbn [source drawn]. f_equal. lia. Qed.

Lemma generateRandomCircuit_run (numGates : nat) (r : rng) :
  length (fst (generateRandomCircuit numGates r)) = numGates
  ∧ Forall (λ g, g ∈ availableGates) (fst (generateRandomCircuit numGates r))
  ∧ snd (generateRandomCircuit numGates r) = consumed numGates r.
Proof.
  unfold generateRandomCircuit. revert r.
  induction numGates as [|n IH]; intros r.
  - cbn. repeat split; [constructor|]. by destruct r.
  - cbn [arrayFrom]. rewrite !Rand_bind_run.
    destruct (pickGate_run r) as [Hin Hr].
    destruct (IH (snd (pickGate r))) as (Hlen & Hall & Hrest).
    cbn [mret Rand_ret fst snd length].
    repeat split.
    + by rewrite Hlen.
    + by constructor.
    + rewrite Hrest, Hr, consumed_add. f_equal. lia.
Qed.

(** Where the index falls.  In exact arithmetic a draw [v] would select
    entry [i] for [i/5 <= v < (i+1)/5]; rounding the product moves the
    boundary by less than [2^-53]: entry [i] is selected for every [v] with
    [i/5 <= v <= (i+1)/5 - 2^-53], and only for [v] with
    [i/5 - 2^-53 <= v < (i+1)/5]. *)
Lemma floor_scaled_interval (d : draw) (i : nat) :
  ((Z.of_nat i # 5 <= draw_val d)%Q →
   (draw_val d + (1 # 2 ^ 53) <= (Z.of_nat i + 1) # 5)%Q →
   floor_scaled d 5 = i)
  ∧ (floor_scaled d 5 = i →
     (Z.of_nat i # 5 <= draw_val d + (1 # 2 ^ 53))%Q
     ∧ (draw_val d < (Z.of_nat i + 1) # 5)%Q).
Proof.
  destruct (draw_range_facts d) as (Hm & Hs & _).
  destruct (floor_scaled_5 d) as (R & -> & [Hup Hdown] & Hmono).
  unfold draw_val, Qle, Qlt, Qplus. cbn [Qnum Qden].
  rewrite !Pos2Z.inj_mul, !pow2_pos_Z.
  set (m := draw_mant d) in *. set (D := (2 ^ N.pos (draw_shift d))%N) in *.
  assert (HD : (0 < D)%N) by lia.
  change (2 ^ 53)%N with 9007199254740992%N in *.
  split.
  - intros Hlo Hhi.
    destruct (Hmono (N.of_nat i)) as [_ Hge].
    assert (Hi : (N.of_nat i * D <= R)%N) by (apply Hge; lia).
    assert (Hlt : (R < D * (N.of_nat i + 1))%N) by lia.
    assert (Hq : (R / D = N.of_nat i)%N).
    { apply N.le_antisymm.
      - apply N.lt_succ_r. rewrite <- N.add_1_r.
        by apply N.Div0.div_lt_upper_bound.
      - apply N.div_le_lower_bound; lia. }
    rewrite Hq. lia.
  - intros Hidx.
    assert (Hq : (R / D = N.of_nat i)%N) by lia.
    pose proof (N.div_mod R D ltac:(lia)) as Hdm.
    pose proof (N.mod_lt R D ltac:(lia)) as Hml.
    rewrite Hq in Hdm.
    generalize dependent (R mod D)%N. intros r Hdm Hml.
    split; [lia|].
    destruct (Hmono (N.of_nat i + 1)%N) as [_ Hge].
    destruct (N.lt_ge_cases (5 * m) ((N.of_nat i + 1) * D)) as [H | H]; [lia|].
    specialize (Hge H). lia.
Qed.

(** Slot [k] of a generated circuit is the entry selected by draw [k]. *)
Lemma arrayFrom_pick (n k : nat) (r : rng) :
  (k < n)%nat →
  fst (arrayFrom n pickGate r) !! k
  = availableGates !! floor_scaled (source r (k + drawn r)) (length availableGates).
Proof.
  revert k r. induction n as [|n IH]; intros k r Hk; [lia|].
  cbn [arrayFrom]. rewrite !Rand_bind_run. cbn [mret Rand_ret fst].
  destruct (pickGate_run r) as [_ Hr].
  destruct k as [|k].
  - cbn [lookup list_lookup Nat.add]. unfold pickGate. rewrite Rand_bind_run.
    cbn [random fst mret Rand_ret].
    destruct (pick_in_range (source r (drawn r))) as [g ->]. done.
  - rewrite lookup_cons. rewrite Hr, IH by lia. unfold consumed.
    cbn [source drawn]. do 3 f_equal. lia.
Qed.

(** Every entry of the selection array is selected by some draw. *)
Lemma floor_scaled_onto (i : nat) :
  (i < 5)%nat → ∃ d : draw, floor_scaled d 5 = i.
Proof.
  intros Hi.
  destruct i as [|[|[|[|[|i]]]]]; [| | | | |lia];
    [exists (Draw 0 53 eq_refl)
    |exists (Draw 3602879701896397 54 eq_refl)
    |exists (Draw 4503599627370496 53 eq_refl)
    |exists (Draw 5404319552844595 53 eq_refl)
    |exists (Draw 8106479329266893 53 eq_refl)];
    vm_compute; reflexivity.
Qed.

(** C10. Whatever the randomness source returns, slot k of a circuit made by
    generateRandomCircuit is the entry of the selection array chosen by draw
    k, one draw per slot in order; so every slot is X, H, Z or absent, and
    NOISE, although the parser accepts its letter N, is never generated.
    The selection array has 5 entries, 2 of them absent; every entry is
    chosen by some draw, on an interval of width one fifth up to the
    rounding of the product: entry i for every draw v with
    i/5 <= v <= (i+1)/5 - 2^-53, and only for draws with
    i/5 - 2^-53 <= v < (i+1)/5. *)
Theorem random_circuit_alphabet (numGates : nat) (r : rng) :
  Forall (λ g, g ∈ [Some "X"; Some "H"; Some "Z"; None])
         (fst (generateRandomCircuit numGates r))
  ∧ (Some "NOISE" ∉ fst (generateRandomCircuit numGates r))
  ∧ length (fst (generateRandomCircuit numGates r)) = numGates
  ∧ snd (generateRandomCircuit numGates r) = consumed numGates r
  ∧ (∀ k : nat,
       (k < numGates)%nat →
       fst (generateRandomCircuit numGates r) !! k
       = availableGates !! floor_scaled (source r (k + drawn r))
                                        (length availableGates))
  ∧ validGates !! "N" = Some "NOISE"
  ∧ length availableGates = 5%nat
  ∧ length (List.filter (λ g, negb (truthy g)) availableGates) = 2%nat
  ∧ (∀ i : nat, (i < length availableGates)%nat →
       ∃ d : draw, floor_scaled d (length availableGates) = i)
  ∧ (∀ (d : draw) (i : nat),
       ((Z.of_nat i # 5 <= draw_val d)%Q →
        (draw_val d + (1 # 2 ^ 53) <= (Z.of_nat i + 1) # 5)%Q →
        floor_scaled d (length availableGates) = i)
       ∧ (floor_scaled d (length availableGates) = i →
          (Z.of_nat i # 5 <= draw_val d + (1 # 2 ^ 53))%Q
          ∧ (draw_val d < (Z.of_nat i + 1) # 5)%Q)).
Proof.
  destruct (generateRandomCircuit_run numGates r) as (Hlen & Hall & Hr).
  assert (Hfour : Forall (λ g, g ∈ [Some "X"; Some "H"; Some "Z"; None])
                         (fst (generateRandomCircuit numGates r))).
  { eapply Forall_impl; [exact Hall|]. intros g. unfold availableGates.
    rewrite !elem_of_cons, !elem_of_nil. tauto. }
  split; [exact Hfour|]. split.
  - intros Hin. rewrite Forall_forall in Hfour. specialize (Hfour _ Hin).
    revert Hfour. rewrite !elem_of_cons, elem_of_nil.
    intros [? | [? | [? | [? | []]]]]; discriminate.
  - split; [exact Hlen|]. split; [exact Hr|].
    split; [intros k Hk; by apply arrayFrom_pick|].
    split; [vm_compute; reflexivity|]. split; [reflexivity|].
    split; [reflexivity|].
    split; [exact floor_scaled_onto|]. intros d i. apply floor_scaled_interval.
Qed.

Lemma measureState_colour (s : state) (r : rng) :
  fst (measureState s r) ∈ ["blue"; "red"; "yellow"].
Proof.
  unfold measureState.
  destruct (String.eqb s "ZERO"); [left|].
  destruct (String.eqb s "ONE"); [right; left|].
  destruct (String.eqb s "PLUS" || String.eqb s "MINUS").
  - rewrite Rand_bind_run. cbn [mret Rand_ret fst].
    destruct (below_half _); [left | right; left].
  - destruct (String.eqb s "DECOHERED"); [do 2 right; left | left].
Qed.

(** The final state read by [buildColumnData] is the last element of the
    trajectory: the index expression never leaves the array. *)
Lemma buildStepStates_last (s0 : state) (gates : list gate) :
  ∃ final : state,
    buildStepStates s0 gates !! (length (buildStepStates s0 gates) - 1)%nat
    = Some final
    ∧ last (buildStepStates s0 gates) = Some final.
Proof.
  rewrite buildStepStates_run. rewrite last_lookup. cbn [length Nat.pred].
  rewrite Nat.sub_1_r. cbn [Nat.pred].
  destruct (lookup_lt_is_Some_2
              (seed s0 :: run applyGate (seed s0) gates)
              (length (run applyGate (seed s0) gates))) as [final Hf];
    [simpl; lia|].
  by exists final.
Qed.

Lemma buildColumnData_run (gs : list gate) (r : rng) :
  gates (fst (buildColumnData gs r)) = gs
  ∧ states (fst (buildColumnData gs r)) = buildStepStates "ZERO" gs
  ∧ last (buildStepStates "ZERO" gs) = Some (finalState (fst (buildColumnData gs r)))
  ∧ measurement (fst (buildColumnData gs r)) ∈ ["blue"; "red"; "yellow"].
Proof.
  unfold buildColumnData. cbv zeta. rewrite Rand_bind_run.
  cbn [mret Rand_ret fst gates states finalState measurement].
  destruct (buildStepStates_last "ZERO" gs) as (final & Hidx & Hlast).
  rewrite Hidx. cbn [default].
  repeat split; [done|apply measureState_colour].
Qed.

Lemma forLoop_invariant {A} (I : nat → A → Prop) (body : A → Rand A) :
  (∀ (k : nat) (a : A) (r : rng), I k a → I (S k) (fst (body a r))) →
  ∀ (n k : nat) (acc : A) (r : rng),
    I k acc → I (n + k)%nat (fst (forLoop n body acc r)).
Proof.
  intros Hbody n. induction n as [|n IH]; intros k acc r Hk; cbn [forLoop].
  - exact Hk.
  - rewrite Rand_bind_run. replace (S n + k)%nat with (n + S k)%nat by lia.
    apply IH, Hbody, Hk.
Qed.

Lemma fixtureCell_shape (numGates k : nat) (rowData : list columnData) (r : rng) :
  length rowData = k ∧ Forall (cellShape numGates) rowData →
  length (fst (fixtureCell numGates rowData r)) = S k
  ∧ Forall (cellShape numGates) (fst (fixtureCell numGates rowData r)).
Proof.
  intros [Hlen Hall]. unfold fixtureCell. rewrite !Rand_bind_run.
  cbn [mret Rand_ret fst].
  destruct (generateRandomCircuit_run numGates r) as (Hn & Hin & _).
  destruct (buildColumnData_run (fst (generateRandomCircuit numGates r))
              (snd (generateRandomCircuit numGates r))) as (Hg & Hs & Hf & Hm).
  split; [rewrite length_app; simpl; lia|].
  apply Forall_app. split; [done|]. constructor; [|constructor].
  unfold cellShape. rewrite Hg, Hs. by repeat split.
Qed.

Lemma fixtureRow_shape (size numGates k : nat) (grid : list (list columnData)) (r : rng) :
  length grid = k
  ∧ Forall (λ row, length row = size ∧ Forall (cellShape numGates) row) grid →
  length (fst (fixtureRow size numGates grid r)) = S k
  ∧ Forall (λ row, length row = size ∧ Forall (cellShape numGates) row)
           (fst (fixtureRow size numGates grid r)).
Proof.
  intros [Hlen Hall]. unfold fixtureRow. rewrite Rand_bind_run.
  cbn [mret Rand_ret fst].
  split; [rewrite length_app; simpl; lia|].
  apply Forall_app. split; [done|]. constructor; [|constructor].
  pose proof (forLoop_invariant
                (λ k row, length row = k ∧ Forall (cellShape numGates) row)
                (fixtureCell numGates)
                (λ k a r, fixtureCell_shape numGates k a r)
                size 0%nat [] r) as H.
  rewrite Nat.add_0_r in H. apply H. by split.
Qed.

(** C9, as the code has it. generateFixtureGrid(size, numGates) returns a
    square grid: size rows of size cells.  Each cell is a column-data record:
    its gates are a random circuit of length numGates, its states the
    trajectory of those gates from ZERO, its final state the last of them and
    its measurement one of blue, red, yellow. *)
Theorem fixture_grid_square (size numGates : nat) (r : rng) :
  length (fst (generateFixtureGrid size numGates r)) = size
  ∧ Forall (λ row, length row = size ∧ Forall (cellShape numGates) row)
           (fst (generateFixtureGrid size numGates r)).
Proof.
  unfold generateFixtureGrid.
  pose proof (forLoop_invariant
                (λ k grid, length grid = k
                           ∧ Forall (λ row, length row = size
                                            ∧ Forall (cellShape numGates) row) grid)
                (fixtureRow size numGates)
                (λ k a r, fixtureRow_shape size numGates k a r)
                size 0%nat [] r) as H.
  rewrite Nat.add_0_r in H. apply H. by split.
Qed.

(** C9, as the spec states it, fails: called with rows 2, cols 3 and length 4
    the grid has rows of 2 cells, not 3 (and gate arrays of length 3). *)
Lemma fixture_grid_shape_counterexample :
  ¬ gridShape 2 3 4 (fst (generateFixtureGrid3 2 3 4 (Rng src0 0))).
Proof.
  intros [_ Hrows].
  assert (E : ∃ row rest,
             fst (generateFixtureGrid3 2 3 4 (Rng src0 0)) = row :: rest
             ∧ length row = 2%nat) by (vm_compute; eauto).
  destruct E as (row & rest & E & Hlen). rewrite E in Hrows.
  apply Forall_cons_1 in Hrows as [[Hcols _] _]. lia.
Qed.

Lemma random_circuit_alphabet_witness :
  (1 < 3)%nat
  ∧ fst (generateRandomCircuit 3 (Rng src1 5)) !! 1%nat
    = availableGates !! floor_scaled (source (Rng src1 5) (1 + drawn (Rng src1 5)))
                                     (length availableGates)
  ∧ fst (generateRandomCircuit 3 (Rng src1 5)) = [Some "Z"; None; None].
Proof.
  assert (Hk : (1 < 3)%nat) by lia.
  pose proof (random_circuit_alphabet 3 (Rng src1 5))
    as (_ & _ & _ & _ & Hslot & _).
  assert (Hval : fst (generateRandomCircuit 3 (Rng src1 5)) = [Some "Z"; None; None])
    by (vm_compute; reflexivity).
  exact (conj Hk (conj (Hslot 1%nat Hk) Hval)).
Defined.

(** The double 0.6 lies below 3/5, yet its product with 5 rounds to 3: the
    draw selects entry 3, an empty slot. *)
Example draw_six_tenths :
  (draw_val (Draw 5404319552844595 53 eq_refl) < 3 # 5)%Q
  ∧ floor_scaled (Draw 5404319552844595 53 eq_refl) 5 = 3%nat
  ∧ fst (pickGate (Rng src1 6)) = None.
Proof. repeat split; vm_compute; reflexivity. Qed.

End Fixture.

(** ** More on trajectories *)

Section Trajectories.

Import Quantum.

Lemma run_app (c : state) (gs1 gs2 : list gate) :
  run applyGate c (gs1 ++ gs2)
  = run applyGate c gs1 ++ run applyGate (finalOf c gs1) gs2.
Proof.
  revert c. induction gs1 as [|g gs1 IH]; intros c; [done|].
  cbn [app run]. by rewrite IH.
Qed.

Lemma last_run (c : state) (gates : list gate) :
  List.last (run applyGate c gates) c = finalOf c gates.
Proof.
  revert c. induction gates as [|g rest IH]; intros c; [done|].
  cbn [run]. rewrite last_cons_default. apply IH.
Qed.

Lemma buildStepStates_final (s0 : state) (gates : list gate) :
  last (buildStepStates s0 gates) = Some (finalOf (seed s0) gates).
Proof. by rewrite buildStepStates_run, last_cons_Some, last_run. Qed.

Lemma seed_coherent (s0 : state) : seed s0 ∈ coherentStates.
Proof.
  unfold coherentStates.
  destruct (seed_cases s0) as [[_ ->] | [_ ->]]; [right; left | left].
Qed.

Lemma coherent_allStates (s : state) : s ∈ coherentStates → s ∈ allStates.
Proof. unfold allStates. intros H. apply elem_of_app. by left. Qed.

Lemma applyGate_closed (s : state) (g : gate) :
  s ∈ allStates → applyGate s g ∈ allStates.
Proof.
  intros Hs. destruct g as [name|]; [|done].
  destruct (decide (name ∈ gateNames)) as [Hin | Hout].
  - revert Hs Hin. unfold allStates, coherentStates, gateNames. cbn [app].
    rewrite !elem_of_cons, !elem_of_nil.
    intros [-> | [-> | [-> | [-> | [-> | []]]]]] [-> | [-> | [-> | [-> | []]]]];
      vm_compute; tauto.
  - by rewrite applyGate_unknown.
Qed.

Lemma applyGate_noise (s : state) :
  s ∈ allStates → applyGate s (Some "NOISE") = "DECOHERED".
Proof.
  unfold allStates, coherentStates. cbn [app]. rewrite !elem_of_cons, elem_of_nil.
  intros [-> | [-> | [-> | [-> | [-> | []]]]]]; vm_compute; reflexivity.
Qed.

Lemma applyGate_coherent (s : state) (g : gate) :
  s ∈ coherentStates → g ≠ Some "NOISE" → applyGate s g ∈ coherentStates.
Proof.
  intros Hs Hg. destruct g as [name|]; [|done].
  destruct (decide (name ∈ gateNames)) as [Hin | Hout].
  - revert Hs Hin Hg. unfold coherentStates, gateNames.
    rewrite !elem_of_cons, !elem_of_nil.
    intros [-> | [-> | [-> | [-> | []]]]] [-> | [-> | [-> | [-> | []]]]] Hg;
      try done; vm_compute; tauto.
  - by rewrite applyGate_unknown.
Qed.

Lemma run_closed (c : state) (gates : list gate) :
  c ∈ allStates → Forall (λ s, s ∈ allStates) (run applyGate c gates).
Proof.
  revert c. induction gates as [|g rest IH]; intros c Hc; [constructor|].
  cbn [run]. constructor; [|apply IH]; by apply applyGate_closed.
Qed.

Lemma finalOf_closed (c : state) (gates : list gate) :
  c ∈ allStates → finalOf c gates ∈ allStates.
Proof.
  revert c. induction gates as [|g rest IH]; intros c Hc; [done|].
  apply IH. by apply applyGate_closed.
Qed.

(** X1. Whatever the gate array holds (table gates, unknown names, empty
    slots), every element of a trajectory is one of the five states. *)
Theorem trajectory_states_closed (s0 : state) (gates : list gate) :
  Forall (λ s, s ∈ allStates) (buildStepStates s0 gates).
Proof.
  rewrite buildStepStates_run.
  pose proof (coherent_allStates _ (seed_coherent s0)) as Hs.
  constructor; [done|]. by apply run_closed.
Qed.

Lemma run_no_noise (c : state) (gates : list gate) :
  c ∈ coherentStates → Some "NOISE" ∉ gates →
  Forall (λ s, s ∈ coherentStates) (run applyGate c gates).
Proof.
  revert c. induction gates as [|g rest IH]; intros c Hc Hn; [constructor|].
  apply not_elem_of_cons in Hn as [Hg Hn].
  cbn [run]. constructor; [|apply IH; [|done]]; by apply applyGate_coherent.
Qed.

Lemma finalOf_decohered (gates : list gate) : finalOf "DECOHERED" gates = "DECOHERED".
Proof.
  induction gates as [|g rest IH]; [done|].
  unfold finalOf in *. cbn [foldl]. by rewrite applyGate_decohered.
Qed.

Lemma finalOf_noise (c : state) (gates : list gate) :
  c ∈ allStates → Some "NOISE" ∈ gates → finalOf c gates = "DECOHERED".
Proof.
  revert c. induction gates as [|g rest IH]; intros c Hc Hin.
  - by apply elem_of_nil in Hin.
  - apply elem_of_cons in Hin as [<- | Hin].
    + unfold finalOf. cbn [foldl]. rewrite applyGate_noise by done.
      apply finalOf_decohered.
    + apply IH; [by apply applyGate_closed|done].
Qed.

Lemma decohered_not_coherent : "DECOHERED" ∉ coherentStates.
Proof.
  unfold coherentStates. rewrite !not_elem_of_cons.
  repeat split; try discriminate. apply not_elem_of_nil.
Qed.

Lemma finalOf_decohered_iff (c : state) (gates : list gate) :
  c ∈ coherentStates →
  finalOf c gates = "DECOHERED" ↔ Some "NOISE" ∈ gates.
Proof.
  intros Hc. split.
  - intros H. destruct (decide (Some "NOISE" ∈ gates)) as [|Hn]; [done|].
    exfalso. apply decohered_not_coherent. rewrite <- H.
    clear H. revert c Hc. induction gates as [|g rest IH]; intros c Hc; [done|].
    apply not_elem_of_cons in Hn as [Hg Hn]. unfold finalOf. cbn [foldl].
    apply (IH Hn). by apply applyGate_coherent.
  - apply finalOf_noise. by apply coherent_allStates.
Qed.

(** X2. A trajectory reaches DECOHERED exactly when the gate array holds a
    NOISE gate, and then it also ends there: no other slot content, known or
    unknown, decoheres the state. *)
Theorem decohered_iff_noise (s0 : state) (gates : list gate) :
  ("DECOHERED" ∈ buildStepStates s0 gates ↔ Some "NOISE" ∈ gates)
  ∧ (last (buildStepStates s0 gates) = Some "DECOHERED" ↔ Some "NOISE" ∈ gates).
Proof.
  assert (Hno : Some "NOISE" ∉ gates → "DECOHERED" ∉ buildStepStates s0 gates).
  { intros Hn Hin. rewrite buildStepStates_run in Hin.
    pose proof (run_no_noise _ gates (seed_coherent s0) Hn) as Hall.
    apply decohered_not_coherent.
    apply elem_of_cons in Hin as [-> | Hin]; [apply seed_coherent|].
    rewrite Forall_forall in Hall. by apply Hall. }
  assert (Hyes : Some "NOISE" ∈ gates →
                 last (buildStepStates s0 gates) = Some "DECOHERED").
  { intros Hin. rewrite buildStepStates_final. f_equal.
    apply finalOf_noise; [|done]. apply coherent_allStates, seed_coherent. }
  assert (Hlast : last (buildStepStates s0 gates) = Some "DECOHERED" →
                  "DECOHERED" ∈ buildStepStates s0 gates).
  { intros H. apply last_Some in H as [l ->]. apply elem_of_app. right. left. }
  split; split.
  - intros Hin. destruct (decide (Some "NOISE" ∈ gates)) as [|Hn]; [done|].
    by destruct (Hno Hn).
  - intros Hin. by apply Hlast, Hyes.
  - intros H. destruct (decide (Some "NOISE" ∈ gates)) as [|Hn]; [done|].
    by destruct (Hno Hn (Hlast H)).
  - exact Hyes.
Qed.

Lemma decohered_iff_noise_witness :
  Some "NOISE" ∈ [Some "H"; Some "NOISE"; Some "X"]
  ∧ last (buildStepStates "ZERO" [Some "H"; Some "NOISE"; Some "X"])
    = Some "DECOHERED".
Proof.
  assert (Hin : Some "NOISE" ∈ [Some "H"; Some "NOISE"; Some "X"]) by (right; left).
  exact (conj Hin
           (proj2 (proj2 (decohered_iff_noise "ZERO"
                            [Some "H"; Some "NOISE"; Some "X"])) Hin)).
Defined.

(** X3. Earlier states do not depend on later gates: the trajectory of
    [gs1 ++ gs2] starts with the whole trajectory of [gs1] and continues from
    its final state. *)
Theorem trajectory_prefix (s0 : state) (gs1 gs2 : list gate) :
  take (S (length gs1)) (buildStepStates s0 (gs1 ++ gs2)) = buildStepStates s0 gs1
  ∧ ∃ final : state,
      last (buildStepStates s0 gs1) = Some final
      ∧ buildStepStates s0 (gs1 ++ gs2)
        = buildStepStates s0 gs1 ++ run applyGate final gs2.
Proof.
  assert (E : buildStepStates s0 (gs1 ++ gs2)
              = buildStepStates s0 gs1
                ++ run applyGate (finalOf (seed s0) gs1) gs2).
  { by rewrite !buildStepStates_run, run_app. }
  split.
  - rewrite E. rewrite take_app_length'; [done|].
    rewrite buildStepStates_run. cbn [length]. by rewrite length_run.
  - exists (finalOf (seed s0) gs1). split; [apply buildStepStates_final|exact E].
Qed.

Lemma finalOf_app (c : state) (gs1 gs2 : list gate) :
  finalOf c (gs1 ++ gs2) = finalOf (finalOf c gs1) gs2.
Proof. unfold finalOf. apply foldl_app. Qed.

Lemma finalOf_filter_truthy (c : state) (gates : list gate) :
  finalOf c (List.filter truthy gates) = finalOf c gates.
Proof.
  revert c. induction gates as [|g rest IH]; intros c; [done|].
  cbn [List.filter]. destruct (truthy g) eqn:E.
  - unfold finalOf in *. cbn [foldl]. apply IH.
  - unfold finalOf in *. cbn [foldl]. rewrite (applyGate_absent c g E). apply IH.
Qed.

Lemma finalOf_absent (c : state) (k : nat) : finalOf c (replicate k None) = c.
Proof. induction k as [|k IH]; [done|]. exact IH. Qed.

Lemma length_compact (seq : list gate) : length (compact seq) = length seq.
Proof.
  unfold compact. rewrite length_app, length_replicate.
  pose proof (List.filter_length_le truthy seq). lia.
Qed.

(** X4. Empty slots never matter for the outcome: dropping them, or moving
    the populated slots to the front, leaves the final state of the
    trajectory unchanged. *)
Theorem empty_slots_irrelevant (s0 : state) (gates : list gate) :
  last (buildStepStates s0 (List.filter truthy gates))
  = last (buildStepStates s0 gates)
  ∧ last (buildStepStates s0 (compact gates)) = last (buildStepStates s0 gates)
  ∧ length (buildStepStates s0 (compact gates))
    = length (buildStepStates s0 gates).
Proof.
  rewrite !buildStepStates_final. unfold compact.
  rewrite finalOf_app, finalOf_absent, finalOf_filter_truthy.
  repeat split.
  rewrite !buildStepStates_run. cbn [length]. rewrite !length_run.
  f_equal. apply (length_compact gates).
Qed.

Lemma countGate_cons (name : string) (g : gate) (rest : list gate) :
  countGate name (g :: rest)
  = ((if bool_decide (g = Some name) then 1 else 0) + countGate name rest)%nat.
Proof.
  unfold countGate. cbn [List.filter]. by destruct (bool_decide (g = Some name)).
Qed.

Lemma finalOf_basis (c : state) (gates : list gate) :
  c ∈ ["ZERO"; "ONE"] →
  Forall (λ g, g ∈ [Some "X"; Some "Z"; None]) gates →
  finalOf c gates
  = (if Nat.even (countGate "X" gates) then c else flipBasis c).
Proof.
  intros Hc Hall. revert c Hc.
  induction Hall as [|g rest Hg _ IH]; intros c Hc; [done|].
  rewrite countGate_cons. unfold finalOf in *. cbn [foldl].
  assert (Hflip : flipBasis c ∈ ["ZERO"; "ONE"] ∧ flipBasis (flipBasis c) = c
                  ∧ applyGate c (Some "X") = flipBasis c
                  ∧ applyGate c (Some "Z") = c).
  { revert Hc. rewrite !elem_of_cons, elem_of_nil.
    intros [-> | [-> | []]]; vm_compute; tauto. }
  destruct Hflip as (Hf & Hff & HX & HZ).
  revert Hg. rewrite !elem_of_cons, elem_of_nil. intros [-> | [-> | [-> | []]]].
  - rewrite HX, IH by done. rewrite bool_decide_true by done.
    change (1 + ?n)%nat with (S n). rewrite Nat.even_succ, <- Nat.negb_even.
    destruct (Nat.even (countGate "X" rest)); cbn [negb]; by rewrite ?Hff.
  - rewrite HZ, IH by done. by rewrite bool_decide_false.
  - cbn. rewrite IH by done. by rewrite bool_decide_false.
Qed.

(** X5. With X and Z gates only (and empty slots) the state stays on the
    basis: the trajectory ends in the seed when the number of X gates is even
    and in the other basis state when it is odd, and the measurement of that
    state makes no draw. *)
Theorem basis_circuit_parity (s0 : state) (gates : list gate) (r : rng) :
  Forall (λ g, g ∈ [Some "X"; Some "Z"; None]) gates →
  last (buildStepStates s0 gates)
  = Some (if Nat.even (countGate "X" gates) then seed s0 else flipBasis (seed s0))
  ∧ ∃ final : state,
      last (buildStepStates s0 gates) = Some final
      ∧ final ∈ ["ZERO"; "ONE"]
      ∧ measureState final r = (if String.eqb final "ZERO" then "blue" else "red", r).
Proof.
  intros Hall.
  assert (Hseed : seed s0 ∈ ["ZERO"; "ONE"]).
  { destruct (seed_cases s0) as [[_ ->] | [_ ->]]; [right; left | left]. }
  rewrite buildStepStates_final, (finalOf_basis _ _ Hseed Hall).
  split; [done|]. eexists. split; [done|].
  revert Hseed. rewrite !elem_of_cons, elem_of_nil.
  intros [-> | [-> | []]]; destruct (Nat.even _); cbn;
    rewrite ?elem_of_cons; tauto.
Qed.

Lemma basis_circuit_parity_witness :
  Forall (λ g, g ∈ [Some "X"; Some "Z"; None]) [Some "X"; Some "Z"; None; Some "X"; Some "X"]
  ∧ last (buildStepStates "ZERO" [Some "X"; Some "Z"; None; Some "X"; Some "X"])
    = Some "ONE".
Proof.
  assert (H : Forall (λ g, g ∈ [Some "X"; Some "Z"; None])
                     [Some "X"; Some "Z"; None; Some "X"; Some "X"]).
  { repeat constructor; rewrite !elem_of_cons; tauto. }
  exact (conj H (proj1 (basis_circuit_parity "ZERO"
                          [Some "X"; Some "Z"; None; Some "X"; Some "X"]
                          (Rng src0 0) H))).
Defined.

Lemma consumed_zero (r : rng) : consumed 0 r = r.
Proof. by destruct r. Qed.

Lemma measureState_run (s : state) (r : rng) :
  s ∈ allStates →
  (fst (measureState s r) = "yellow" ↔ s = "DECOHERED")
  ∧ snd (measureState s r)
    = consumed (if bool_decide (s ∈ ["PLUS"; "MINUS"]) then 1 else 0) r.
Proof.
  unfold allStates, coherentStates. cbn [app]. rewrite !elem_of_cons, elem_of_nil.
  intros Hs. split.
  - destruct Hs as [-> | [-> | [-> | [-> | [-> | []]]]]]; cbn;
      rewrite ?Rand_bind_run; cbn [mret Rand_ret fst];
      try destruct (below_half _); split; intros H; first [done | discriminate H].
  - case_bool_decide as Hsup.
    + revert Hsup. rewrite !elem_of_cons, elem_of_nil.
      by intros [-> | [-> | []]].
    + rewrite consumed_zero. rewrite !not_elem_of_cons in Hsup.
      destruct Hsup as (HP & HM & _).
      by destruct Hs as [-> | [-> | [-> | [-> | [-> | []]]]]].
Qed.

(** X6. What buildColumnData records: the gates it was given, their
    trajectory from ZERO, the last state of that trajectory and its
    measurement.  The measurement is yellow exactly when the gates hold a
    NOISE gate, and Math.random is called once when the final state is PLUS
    or MINUS and not at all otherwise. *)
Theorem buildColumnData_summary (gs : list gate) (r : rng) :
  gates (fst (buildColumnData gs r)) = gs
  ∧ states (fst (buildColumnData gs r)) = buildStepStates "ZERO" gs
  ∧ finalState (fst (buildColumnData gs r)) = finalOf "ZERO" gs
  ∧ measurement (fst (buildColumnData gs r)) = fst (measureState (finalOf "ZERO" gs) r)
  ∧ (measurement (fst (buildColumnData gs r)) = "yellow" ↔ Some "NOISE" ∈ gs)
  ∧ snd (buildColumnData gs r)
    = consumed (if bool_decide (finalOf "ZERO" gs ∈ ["PLUS"; "MINUS"])
                then 1 else 0) r.
Proof.
  assert (Hidx : buildStepStates "ZERO" gs !! (length (buildStepStates "ZERO" gs) - 1)%nat
                 = Some (finalOf "ZERO" gs)).
  { destruct (buildStepStates_last "ZERO" gs) as (final & Hidx & Hlast).
    rewrite buildStepStates_final in Hlast. injection Hlast as <-.
    exact Hidx. }
  assert (Hclosed : finalOf "ZERO" gs ∈ allStates).
  { apply finalOf_closed. left. }
  destruct (measureState_run (finalOf "ZERO" gs) r Hclosed) as [Hy Hr].
  unfold buildColumnData. cbv zeta. rewrite Rand_bind_run, Hidx.
  cbn [default mret Rand_ret fst snd gates states finalState measurement].
  assert (Hzero : "ZERO" ∈ coherentStates) by left.
  repeat split; try done.
  - intros H. by apply (finalOf_decohered_iff "ZERO" gs Hzero), Hy.
  - intros H. by apply Hy, (finalOf_decohered_iff "ZERO" gs Hzero).
Qed.

Lemma buildColumnData_summary_witness :
  Some "NOISE" ∈ [Some "H"; Some "NOISE"]
  ∧ measurement (fst (buildColumnData [Some "H"; Some "NOISE"] (Rng src1 3))) = "yellow".
Proof.
  assert (Hin : Some "NOISE" ∈ [Some "H"; Some "NOISE"]) by (right; left).
  pose proof (buildColumnData_summary [Some "H"; Some "NOISE"] (Rng src1 3))
    as (_ & _ & _ & _ & Hy & _).
  exact (conj Hin (proj2 Hy Hin)).
Defined.

End Trajectories.

(** ** The parser in closed form *)

Section Parser.

Import Quantum.

Lemma parse_fold_take (n : nat) (chars : list ascii) (acc : list gate) :
  foldl (parseStep n) acc chars
  = acc ++ (gateOfLetter <$> take (n - length acc)
                                  (List.filter (λ c, truthy (gateOfLetter c)) chars)).
Proof.
  revert acc. induction chars as [|c chars IH]; intros acc.
  - cbn [foldl List.filter]. by rewrite take_nil, app_nil_r.
  - cbn [foldl List.filter]. rewrite IH. unfold parseStep. cbv zeta.
    fold (gateOfLetter c). destruct (truthy (gateOfLetter c)) eqn:Ht; cbn [andb].
    + destruct (Nat.ltb_spec (length acc) n) as [Hlt | Hge].
      * rewrite length_app. cbn [length].
        replace (n - length acc)%nat with (S (n - (length acc + 1)))%nat by lia.
        cbn [take fmap list_fmap]. by rewrite <- app_assoc.
      * replace (n - length acc)%nat with 0%nat by lia. done.
    + done.
Qed.

Lemma parse_text (text : string) (n : nat) :
  parseGateString (Some text) n
  = (gateOfLetter <$> take n (validLetters text))
    ++ replicate (n - length (validLetters text)) None.
Proof.
  unfold parseGateString. cbv zeta.
  assert (Htext : (if truthy (Some text) then default EmptyString (Some text)
                   else EmptyString) = text) by (by destruct text).
  rewrite Htext, parse_fold_take. cbn [app length]. rewrite Nat.sub_0_r.
  fold (validLetters text).
  rewrite padLoop_replicate by (rewrite length_fmap, length_take; lia).
  rewrite length_fmap, length_take. f_equal. f_equal. lia.
Qed.

(** X7. The parser in closed form: the result holds the gates of the first
    [numGates] letters of the upper-cased text that are X, H, Z or N, in
    order, every other character being skipped, followed by empty slots up to
    [numGates]; a null or empty text gives [numGates] empty slots. *)
Theorem parse_closed_form (numGates : nat) :
  (∀ text : string,
     parseGateString (Some text) numGates
     = (gateOfLetter <$> take numGates (validLetters text))
       ++ replicate (numGates - length (validLetters text)) None)
  ∧ parseGateString None numGates = replicate numGates None
  ∧ parseGateString (Some EmptyString) numGates = replicate numGates None.
Proof.
  split; [intros text; apply parse_text|].
  assert (E : parseGateString None numGates = replicate numGates None).
  { unfold parseGateString. cbv zeta. cbn [truthy toUpperCase list_ascii_of_string foldl].
    rewrite padLoop_replicate by (simpl; lia). cbn [app length].
    by rewrite Nat.sub_0_r. }
  split; [exact E|]. rewrite parse_text.
  change (validLetters EmptyString) with (@nil ascii). rewrite take_nil.
  cbn [fmap list_fmap app length]. by rewrite Nat.sub_0_r.
Qed.

Lemma isGateChar_gateOfLetter (c : ascii) : FixtureView.isGateChar c = truthy (gateOfLetter c).
Proof. destruct c as [[] [] [] [] [] [] [] []]; vm_compute; reflexivity. Qed.

Lemma validLetter_facts (c : ascii) :
  truthy (gateOfLetter c) = true →
  upper_ascii c = c
  ∧ ∃ name, gateOfLetter c = Some name ∧ name ∈ gateNames
            ∧ gateLetter (Some name) = Some (String c EmptyString).
Proof.
  rewrite <- isGateChar_gateOfLetter. unfold FixtureView.isGateChar.
  intros H. apply existsb_exists in H as (x & Hx & Heq).
  apply Ascii.eqb_eq in Heq as <-. cbn in Hx.
  destruct Hx as [<- | [<- | [<- | [<- | []]]]];
    (split; [vm_compute; reflexivity|]);
    [exists "X" | exists "H" | exists "Z" | exists "NOISE"];
    (split; [vm_compute; reflexivity|]);
    (split; [unfold gateNames; rewrite !elem_of_cons; tauto|]);
    vm_compute; reflexivity.
Qed.

Lemma filter_valid_upper (chars : list ascii) :
  Forall (λ c, truthy (gateOfLetter c) = true) chars →
  list_ascii_of_string (toUpperCase (string_of_list_ascii chars)) = chars
  ∧ List.filter (λ c, truthy (gateOfLetter c)) chars = chars.
Proof.
  induction 1 as [|c chars Hc _ [IH1 IH2]]; [done|].
  destruct (validLetter_facts c Hc) as [Hu _].
  cbn [string_of_list_ascii toUpperCase list_ascii_of_string List.filter].
  by rewrite Hu, IH1, Hc, IH2.
Qed.

Lemma validLetters_valid (text : string) :
  Forall (λ c, truthy (gateOfLetter c) = true) (validLetters text).
Proof.
  unfold validLetters. apply Forall_forall. intros c Hc.
  apply list_elem_of_In, filter_In in Hc. tauto.
Qed.

Lemma gatesToString_letters (chars : list ascii) (k : nat) :
  Forall (λ c, truthy (gateOfLetter c) = true) chars →
  gatesToString ((gateOfLetter <$> chars) ++ replicate k None)
  = string_of_list_ascii chars.
Proof.
  induction 1 as [|c chars Hc _ IH].
  - cbn [fmap list_fmap app]. apply gatesToString_absent.
  - destruct (validLetter_facts c Hc) as (_ & name & Hname & _ & Hletter).
    cbn [fmap list_fmap app string_of_list_ascii].
    change (list_fmap _ _ gateOfLetter chars) with (gateOfLetter <$> chars).
    rewrite Hname. rewrite Hname in Hc.
    by rewrite (gatesToString_cons name c _ Hc Hletter), IH.
Qed.

Lemma validLetters_filtered (value : string) :
  validLetters (FixtureView.filtered value) = take 4 (validLetters value).
Proof.
  unfold FixtureView.filtered.
  assert (E : List.filter FixtureView.isGateChar
                (list_ascii_of_string (toUpperCase value)) = validLetters value).
  { unfold validLetters. apply List.filter_ext. apply isGateChar_gateOfLetter. }
  rewrite E. unfold validLetters at 1.
  assert (Hv : Forall (λ c, truthy (gateOfLetter c) = true)
                      (take 4 (validLetters value))).
  { apply Forall_take, validLetters_valid. }
  destruct (filter_valid_upper _ Hv) as [-> ->]. done.
Qed.

(** X9. The text the fixture editor stores is what the parser and formatter
    agree on: formatting the parse of any typed value at 4 slots gives the
    stored text, the stored text parses to the same gates as the typed value,
    and storing is idempotent. *)
Theorem editor_text_consistent (value : string) :
  gatesToString (parseGateString (Some value) FixtureView.NUM_GATES)
  = FixtureView.filtered value
  ∧ parseGateString (Some (FixtureView.filtered value)) FixtureView.NUM_GATES
    = parseGateString (Some value) FixtureView.NUM_GATES
  ∧ FixtureView.filtered (FixtureView.filtered value) = FixtureView.filtered value.
Proof.
  assert (E : List.filter FixtureView.isGateChar
                (list_ascii_of_string (toUpperCase value)) = validLetters value).
  { unfold validLetters. apply List.filter_ext. apply isGateChar_gateOfLetter. }
  assert (Hv : Forall (λ c, truthy (gateOfLetter c) = true)
                      (take 4 (validLetters value))).
  { apply Forall_take, validLetters_valid. }
  unfold FixtureView.NUM_GATES. split; [|split].
  - rewrite parse_text, (gatesToString_letters _ _ Hv).
    unfold FixtureView.filtered. by rewrite E.
  - rewrite !parse_text, validLetters_filtered, take_take, length_take.
    f_equal. f_equal. lia.
  - unfold FixtureView.filtered at 1.
    assert (E' : List.filter FixtureView.isGateChar
                   (list_ascii_of_string (toUpperCase (FixtureView.filtered value)))
                 = take 4 (validLetters value)).
    { rewrite <- validLetters_filtered. unfold validLetters.
      apply List.filter_ext. apply isGateChar_gateOfLetter. }
    rewrite E', take_take. unfold FixtureView.filtered. by rewrite E.
Qed.

Lemma filter_truthy_absent (k : nat) : List.filter truthy (replicate k None) = [].
Proof. induction k as [|k IH]; [done|]. exact IH. Qed.

Lemma filter_truthy_names (gs : list string) :
  Forall (λ name, name ∈ gateNames) gs →
  List.filter truthy (Some <$> gs) = Some <$> gs.
Proof.
  induction 1 as [|name gs Hname _ IH]; [done|].
  destruct (gate_letter name Hname) as (_ & Ht & _).
  rewrite fmap_cons. cbn [List.filter]. by rewrite Ht, IH.
Qed.

Lemma populated_names (seq : list gate) :
  isGateSequence seq →
  ∃ gs : list string,
    List.filter truthy seq = Some <$> gs ∧ Forall (λ name, name ∈ gateNames) gs.
Proof.
  induction 1 as [|g rest Hg _ (gs & E & Hgs)]; [by exists []|].
  destruct Hg as [-> | (name & -> & Hname)].
  - by exists gs.
  - destruct (gate_letter name Hname) as (_ & Ht & _).
    exists (name :: gs). cbn [List.filter]. rewrite Ht, E.
    split; [done|by constructor].
Qed.

Lemma parse_format_compact (seq : list gate) :
  isGateSequence seq →
  parseGateString (Some (gatesToString seq)) (length seq) = compact seq.
Proof.
  intros Hseq. destruct (populated_names seq Hseq) as (gs & E & Hgs).
  pose proof (List.filter_length_le truthy seq) as Hle.
  unfold compact. rewrite E in Hle |- *. rewrite length_fmap in Hle |- *.
  set (k := (length seq - length gs)%nat).
  assert (Hfmt : gatesToString seq = gatesToString ((Some <$> gs) ++ replicate k None)).
  { unfold gatesToString.
    by rewrite List.filter_app, filter_truthy_absent, app_nil_r,
               (filter_truthy_names gs Hgs), E. }
  unfold parseGateString. cbv zeta.
  assert (Htext : (if truthy (Some (gatesToString seq))
                   then default EmptyString (Some (gatesToString seq))
                   else EmptyString) = gatesToString seq).
  { cbn [default truthy]. by destruct (gatesToString seq). }
  rewrite Htext, Hfmt, parse_format_fold by (simpl; lia || done).
  cbn [app]. rewrite padLoop_replicate by lia. by rewrite length_fmap.
Qed.

(** X10. Formatting a gate sequence and parsing the text back at the same
    length moves the populated slots to the front and keeps the length;
    nothing else changes.  (The round trip of the no-gap case is the instance
    where this is the identity.) *)
Theorem parse_format_compacts (seq : list gate) :
  isGateSequence seq →
  parseGateString (Some (gatesToString seq)) (length seq) = compact seq
  ∧ List.filter truthy (compact seq) = List.filter truthy seq
  ∧ length (compact seq) = length seq.
Proof.
  intros Hseq. split; [by apply parse_format_compact|]. split.
  - unfold compact.
    rewrite List.filter_app, filter_truthy_absent, app_nil_r.
    destruct (populated_names seq Hseq) as (gs & E & Hgs).
    by rewrite E, (filter_truthy_names gs Hgs).
  - apply length_compact.
Qed.

Lemma parse_format_compacts_witness :
  isGateSequence [None; Some "Z"; None; Some "NOISE"]
  ∧ parseGateString (Some (gatesToString [None; Some "Z"; None; Some "NOISE"]))
                    (length [None; Some "Z"; None; Some "NOISE"])
    = [Some "Z"; Some "NOISE"; None; None].
Proof.
  assert (Hseq : isGateSequence [None; Some "Z"; None; Some "NOISE"]).
  { unfold isGateSequence, gateNames.
    constructor; [by left|].
    constructor; [right; exists "Z"; split; [done|do 2 right; left]|].
    constructor; [by left|].
    constructor; [right; exists "NOISE"; split; [done|do 3 right; left]|].
    constructor. }
  exact (conj Hseq (proj1 (parse_format_compacts _ Hseq))).
Defined.

Lemma availableGates_sequence (gs : list gate) :
  Forall (λ g, g ∈ availableGates) gs →
  isGateSequence gs ∧ Some "NOISE" ∉ gs.
Proof.
  intros Hall. split.
  - eapply Forall_impl; [exact Hall|]. intros g. unfold availableGates, gateNames.
    rewrite !elem_of_cons, elem_of_nil.
    intros [-> | [-> | [-> | [-> | [-> | []]]]]]; auto;
      right; eexists; (split; [done|]); rewrite !elem_of_cons; tauto.
  - intros Hin. rewrite Forall_forall in Hall. specialize (Hall _ Hin).
    revert Hall. unfold availableGates. rewrite !elem_of_cons, elem_of_nil.
    intros [? | [? | [? | [? | [? | []]]]]]; discriminate.
Qed.

Lemma elem_of_compact (g : gate) (seq : list gate) :
  g ∈ compact seq → g ∈ seq ∨ g = None.
Proof.
  unfold compact. rewrite elem_of_app. intros [Hin | Hin].
  - left. apply list_elem_of_In. apply list_elem_of_In, filter_In in Hin. tauto.
  - right. by apply elem_of_replicate in Hin as [-> _].
Qed.

(** X11. The fixture view keeps a generated column as text and shows the
    column parsed back from it.  For a column of the generated grid the
    shown gates are the generated ones with the populated slots moved to the
    front, the shown final state is the generated final state, and the shown
    measurement is blue or red. *)
Theorem rederived_column_same_outcome (col : columnData) (r : rng) :
  cellShape FixtureView.NUM_GATES col →
  gates (fst (FixtureView.cellData (FixtureView.cellText col) r))
  = compact (gates col)
  ∧ finalState (fst (FixtureView.cellData (FixtureView.cellText col) r))
    = finalState col
  ∧ measurement (fst (FixtureView.cellData (FixtureView.cellText col) r))
    ∈ ["blue"; "red"].
Proof.
  intros (Hlen & Hall & Hstates & Hlast & _).
  destruct (availableGates_sequence _ Hall) as [Hseq Hnoise].
  unfold FixtureView.cellData, FixtureView.cellText.
  rewrite <- Hlen, (parse_format_compact _ Hseq).
  destruct (buildColumnData_run (compact (gates col)) r) as (Hg & _ & Hf & Hm).
  assert (Hzero : "ZERO" ∈ coherentStates) by left.
  assert (Hfinal : finalState (fst (buildColumnData (compact (gates col)) r))
                   = finalOf "ZERO" (gates col)).
  { rewrite buildStepStates_final in Hf. injection Hf as <-.
    change (seed "ZERO") with "ZERO". unfold compact.
    by rewrite finalOf_app, finalOf_absent, finalOf_filter_truthy. }
  split; [exact Hg|]. split.
  - rewrite Hfinal. rewrite Hstates, buildStepStates_final in Hlast.
    by injection Hlast.
  - assert (Hny : measurement (fst (buildColumnData (compact (gates col)) r))
                  ≠ "yellow").
    { unfold buildColumnData. cbv zeta. rewrite Rand_bind_run.
      cbn [mret Rand_ret fst measurement].
      destruct (buildStepStates_last "ZERO" (compact (gates col)))
        as (final & Hidx & Hl).
      rewrite Hidx. cbn [default]. intros Hy.
      rewrite buildStepStates_final in Hl. injection Hl as <-.
      change (seed "ZERO") with "ZERO" in Hy.
      apply measureState_run in Hy; [|by apply finalOf_closed; left].
      apply (finalOf_decohered_iff "ZERO" _ Hzero) in Hy.
      by apply elem_of_compact in Hy as [Hy | Hy]. }
    revert Hm Hny. rewrite !elem_of_cons, !elem_of_nil. tauto.
Qed.

Lemma rederived_column_same_outcome_witness :
  cellShape FixtureView.NUM_GATES
    (ColumnData [None; Some "X"; None; Some "H"]
                ["ZERO"; "ZERO"; "ONE"; "ONE"; "MINUS"] "MINUS" "red")
  ∧ gates (fst (FixtureView.cellData
                  (FixtureView.cellText
                     (ColumnData [None; Some "X"; None; Some "H"]
                        ["ZERO"; "ZERO"; "ONE"; "ONE"; "MINUS"] "MINUS" "red"))
                  (Rng src0 0)))
    = compact [None; Some "X"; None; Some "H"].
Proof.
  assert (H : cellShape FixtureView.NUM_GATES
                (ColumnData [None; Some "X"; None; Some "H"]
                   ["ZERO"; "ZERO"; "ONE"; "ONE"; "MINUS"] "MINUS" "red")).
  { unfold cellShape, availableGates. cbn [gates states finalState measurement].
    split; [reflexivity|]. split.
    - repeat constructor; rewrite !elem_of_cons; tauto.
    - split; [vm_compute; reflexivity|]. split; [reflexivity|].
      rewrite !elem_of_cons; tauto. }
  exact (conj H (proj1 (rederived_column_same_outcome _ (Rng src0 0) H))).
Defined.

Lemma gatesToString_parse_filtered (value : string) :
  gatesToString (parseGateString (Some value) FixtureView.NUM_GATES)
  = FixtureView.filtered value.
Proof.
  assert (E : List.filter FixtureView.isGateChar
                (list_ascii_of_string (toUpperCase value)) = validLetters value).
  { unfold validLetters. apply List.filter_ext. apply isGateChar_gateOfLetter. }
  assert (Hv : Forall (λ c, truthy (gateOfLetter c) = true)
                      (take 4 (validLetters value))).
  { apply Forall_take, validLetters_valid. }
  unfold FixtureView.NUM_GATES.
  rewrite parse_text, (gatesToString_letters _ _ Hv).
  unfold FixtureView.filtered. by rewrite E.
Qed.

Lemma gatesToString_compact (seq : list gate) :
  isGateSequence seq → gatesToString (compact seq) = gatesToString seq.
Proof.
  intros Hseq. unfold gatesToString, compact.
  rewrite List.filter_app, filter_truthy_absent, app_nil_r.
  destruct (populated_names seq Hseq) as (gs & E & Hgs).
  by rewrite E, (filter_truthy_names gs Hgs).
Qed.

(** X12. The text of a gate sequence with NUM_GATES slots passes the
    editor's filter unchanged: the texts the fixture view derives from a
    generated grid are texts the editor itself would store. *)
Theorem generated_text_passes_filter (seq : list gate) :
  isGateSequence seq →
  length seq = FixtureView.NUM_GATES →
  FixtureView.filtered (gatesToString seq) = gatesToString seq.
Proof.
  intros Hseq Hlen.
  rewrite <- gatesToString_parse_filtered, <- Hlen.
  by rewrite (parse_format_compact seq Hseq), gatesToString_compact.
Qed.

Lemma generated_text_passes_filter_witness :
  isGateSequence [None; Some "NOISE"; Some "H"; None]
  ∧ length [None; Some "NOISE"; Some "H"; None] = FixtureView.NUM_GATES
  ∧ FixtureView.filtered (gatesToString [None; Some "NOISE"; Some "H"; None])
    = gatesToString [None; Some "NOISE"; Some "H"; None].
Proof.
  assert (Hseq : isGateSequence [None; Some "NOISE"; Some "H"; None]).
  { unfold isGateSequence, gateNames.
    constructor; [by left|].
    constructor; [right; exists "NOISE"; split; [done|do 3 right; left]|].
    constructor; [right; exists "H"; split; [done|right; left]|].
    constructor; [by left|]. constructor. }
  assert (Hlen : length [None; Some "NOISE"; Some "H"; None] = FixtureView.NUM_GATES)
    by reflexivity.
  exact (conj Hseq (conj Hlen (generated_text_passes_filter _ Hseq Hlen))).
Defined.

(** X8. For every text (or null) and every [numGates] the parser returns
    exactly [numGates] slots, each null or one of X, H, Z, NOISE, with no
    null slot before a populated one. *)
Theorem parse_result_shape (str : option string) (numGates : nat) :
  length (parseGateString str numGates) = numGates
  ∧ isGateSequence (parseGateString str numGates)
  ∧ noGapBeforeLast (parseGateString str numGates).
Proof. apply parseGateString_shape. Qed.

Lemma compact_no_gap (seq : list gate) :
  isGateSequence seq → noGapBeforeLast seq → compact seq = seq.
Proof.
  intros Hseq Hgap.
  destruct (noGap_split seq Hseq Hgap) as (gs & k & -> & Hgs).
  unfold compact.
  rewrite List.filter_app, filter_truthy_absent, app_nil_r,
          (filter_truthy_names gs Hgs).
  rewrite length_app, length_fmap, length_replicate. f_equal. f_equal. lia.
Qed.

(** X18. The round trip characterised: parsing the formatted text of a slot
    array at the array's length gives the array back exactly when every slot
    is null or one of X, H, Z, NOISE and no null slot precedes a populated
    one. *)
Theorem round_trip_iff (seq : list gate) :
  parseGateString (Some (gatesToString seq)) (length seq) = seq
  ↔ isGateSequence seq ∧ noGapBeforeLast seq.
Proof.
  split; [apply round_trip_only_if|].
  intros [Hseq Hgap].
  by rewrite (parse_format_compact seq Hseq), (compact_no_gap seq Hseq Hgap).
Qed.

Lemma round_trip_iff_witness :
  parseGateString (Some (gatesToString [Some "H"; None])) (length [Some "H"; None])
  = [Some "H"; None]
  ∧ isGateSequence [Some "H"; None] ∧ noGapBeforeLast [Some "H"; None].
Proof.
  assert (E : parseGateString (Some (gatesToString [Some "H"; None]))
                              (length [Some "H"; None]) = [Some "H"; None])
    by (vm_compute; reflexivity).
  exact (conj E (proj1 (round_trip_iff [Some "H"; None]) E)).
Defined.

End Parser.

(** ** How much randomness the fixture uses *)

Section Draws.

Import Quantum.

Lemma forLoop_draws {A} (body : A → Rand A) (lo hi : nat) :
  (∀ (a : A) (r : rng),
     ∃ k, snd (body a r) = consumed k r ∧ (lo ≤ k ≤ hi)%nat) →
  ∀ (n : nat) (acc : A) (r : rng),
    ∃ k, snd (forLoop n body acc r) = consumed k r
         ∧ (n * lo ≤ k ≤ n * hi)%nat.
Proof.
  intros Hbody n. induction n as [|n IH]; intros acc r; cbn [forLoop].
  - exists 0%nat. split; [by rewrite consumed_zero|lia].
  - rewrite Rand_bind_run.
    destruct (Hbody acc r) as (k1 & E1 & Hk1).
    destruct (IH (fst (body acc r)) (snd (body acc r))) as (k2 & E2 & Hk2).
    exists (k2 + k1)%nat. split; [by rewrite E2, E1, consumed_add|lia].
Qed.

Lemma buildColumnData_draws (gs : list gate) (r : rng) :
  ∃ k, snd (buildColumnData gs r) = consumed k r ∧ (k ≤ 1)%nat.
Proof.
  unfold buildColumnData. cbv zeta. rewrite Rand_bind_run.
  cbn [mret Rand_ret snd].
  destruct (buildStepStates_last "ZERO" gs) as (final & Hidx & Hl).
  rewrite Hidx. cbn [default id].
  rewrite buildStepStates_final in Hl. injection Hl as <-.
  destruct (measureState_run (finalOf (seed "ZERO") gs) r) as [_ ->];
    [apply finalOf_closed; left|].
  eexists. split; [done|]. case_bool_decide; lia.
Qed.

Lemma fixtureCell_draws (numGates : nat) (rowData : list columnData) (r : rng) :
  ∃ k, snd (fixtureCell numGates rowData r) = consumed k r
       ∧ (numGates ≤ k ≤ numGates + 1)%nat.
Proof.
  unfold fixtureCell. rewrite !Rand_bind_run. cbn [mret Rand_ret snd].
  destruct (generateRandomCircuit_run numGates r) as (_ & _ & E1).
  destruct (buildColumnData_draws (fst (generateRandomCircuit numGates r))
              (snd (generateRandomCircuit numGates r))) as (k & E2 & Hk).
  exists (k + numGates)%nat. split; [by rewrite E2, E1, consumed_add|lia].
Qed.

Lemma fixtureRow_draws (size numGates : nat) (grid : list (list columnData)) (r : rng) :
  ∃ k, snd (fixtureRow size numGates grid r) = consumed k r
       ∧ (size * numGates ≤ k ≤ size * (numGates + 1))%nat.
Proof.
  unfold fixtureRow. rewrite Rand_bind_run. cbn [mret Rand_ret snd].
  apply (forLoop_draws (fixtureCell numGates) numGates (numGates + 1)
           (fixtureCell_draws numGates)).
Qed.

(** X13. Building a fixture grid calls Math.random once per gate slot and at
    most once more per column (for a column ending in PLUS or MINUS): between
    size * size * numGates and size * size * (numGates + 1) draws, taken in
    order from the source, which is otherwise left as it was. *)
Theorem fixture_grid_draws (size numGates : nat) (r : rng) :
  ∃ k : nat,
    snd (generateFixtureGrid size numGates r) = consumed k r
    ∧ (size * (size * numGates) ≤ k ≤ size * (size * (numGates + 1)))%nat.
Proof.
  unfold generateFixtureGrid.
  apply (forLoop_draws (fixtureRow size numGates)
           (size * numGates) (size * (numGates + 1))
           (fixtureRow_draws size numGates)).
Qed.

End Draws.

(** ** Display tables *)

Section Display.

Import Quantum.

(** X17. Nothing the simulator produces lacks a display entry: every state
    of every trajectory has a label and a colour, and whatever measureState
    is given, the colour it returns has a hex value. *)
Theorem display_tables_total :
  (∀ (s0 : state) (gs : list gate) (s : state),
     s ∈ buildStepStates s0 gs →
     is_Some (stateLabels !! s) ∧ is_Some (stateColors !! s))
  ∧ (∀ (s : state) (r : rng), is_Some (stateHexColors !! fst (measureState s r))).
Proof.
  split.
  - intros s0 gs s Hin.
    pose proof (coherent_allStates _ (seed_coherent s0)) as Hs.
    assert (Hall : s ∈ allStates).
    { rewrite buildStepStates_run in Hin.
      apply elem_of_cons in Hin as [-> | Hin]; [done|].
      pose proof (run_closed _ gs Hs) as H. rewrite Forall_forall in H.
      by apply H. }
    revert Hall. unfold allStates, coherentStates. cbn [app].
    rewrite !elem_of_cons, elem_of_nil.
    intros [-> | [-> | [-> | [-> | [-> | []]]]]]; split; by eexists.
  - intros s r. pose proof (measureState_colour s r) as H.
    revert H. rewrite !elem_of_cons, elem_of_nil.
    intros [-> | [-> | [-> | []]]]; by eexists.
Qed.

Lemma display_tables_total_witness :
  "MINUS" ∈ buildStepStates "ONE" [Some "H"; None]
  ∧ is_Some (stateLabels !! "MINUS") ∧ is_Some (stateColors !! "MINUS").
Proof.
  assert (Hin : "MINUS" ∈ buildStepStates "ONE" [Some "H"; None]).
  { vm_compute. right. left. }
  exact (conj Hin (proj1 display_tables_total "ONE" [Some "H"; None] "MINUS" Hin)).
Defined.

End Display.

(** ** The circuit view *)

Section CircuitView.

Lemma App_buildStepStates_eq (s0 : state) (gates : list gate) :
  App.buildStepStates s0 gates
  = Quantum.buildStepStates s0 gates ++ [finalOf (Quantum.seed s0) gates].
Proof.
  unfold App.buildStepStates. cbv zeta.
  rewrite App_foldl_stepLoop, foldl_stepLoop, buildStepStates_run, last_run.
  done.
Qed.

(** X14. The circuit view's private applyGate and measureState behave as the
    shared module's on every input, with the same use of Math.random. *)
Theorem app_copies_agree :
  (∀ (s : state) (g : gate), App.applyGate s g = Quantum.applyGate s g)
  ∧ (∀ (s : state) (r : rng), App.measureState s r = Quantum.measureState s r).
Proof. split; reflexivity. Qed.

Lemma length_buildStepStates (s0 : state) (gates : list gate) :
  length (Quantum.buildStepStates s0 gates) = S (length gates).
Proof. rewrite buildStepStates_run. cbn [length]. by rewrite length_run. Qed.

Lemma buildStepStates_app (s0 : state) (gs1 gs2 : list gate) :
  Quantum.buildStepStates s0 (gs1 ++ gs2)
  = Quantum.buildStepStates s0 gs1
    ++ run Quantum.applyGate (finalOf (Quantum.seed s0) gs1) gs2.
Proof. by rewrite !buildStepStates_run, run_app. Qed.

Lemma App_take_prefix (s0 : state) (gs1 gs2 : list gate) :
  take (S (length gs1)) (App.buildStepStates s0 (gs1 ++ gs2))
  = Quantum.buildStepStates s0 gs1.
Proof.
  rewrite App_buildStepStates_eq, buildStepStates_app, <- app_assoc.
  rewrite take_app_length'; [done|by rewrite length_buildStepStates].
Qed.

(** X15. Editing a slot of the circuit keeps the number of slots and leaves
    the trajectory unchanged up to and including the state entering that
    slot; removing the gate just dropped into an empty slot restores the
    circuit. *)
Theorem gate_edit_prefix_stable
    (init : state) (prev : list gate) (index : nat) (gateType : string) :
  (index < length prev)%nat →
  length (App.handleDropGate index gateType prev) = length prev
  ∧ length (App.handleRemoveGate index prev) = length prev
  ∧ take (S index) (App.buildStepStates init (App.handleDropGate index gateType prev))
    = take (S index) (App.buildStepStates init prev)
  ∧ take (S index) (App.buildStepStates init (App.handleRemoveGate index prev))
    = take (S index) (App.buildStepStates init prev)
  ∧ App.handleRemoveGate index (App.handleDropGate index gateType prev)
    = App.handleRemoveGate index prev
  ∧ (prev !! index = Some None →
     App.handleRemoveGate index (App.handleDropGate index gateType prev) = prev).
Proof.
  intros Hlt. unfold App.handleDropGate, App.handleRemoveGate, App.arraySet.
  assert (Hb : (index <? length prev)%nat = true) by by apply Nat.ltb_lt.
  rewrite !Hb, !length_insert, !Hb.
  assert (Hpre : ∀ v : gate,
            take (S index) (App.buildStepStates init (<[index := v]> prev))
            = take (S index) (App.buildStepStates init prev)).
  { intros v.
    assert (Hlen : length (take index prev) = index)
      by (rewrite length_take; lia).
    pose proof (App_take_prefix init (take index prev) (v :: drop (S index) prev))
      as Hnew.
    pose proof (App_take_prefix init (take index prev) (drop index prev)) as Hold.
    rewrite Hlen in Hnew, Hold. rewrite take_drop in Hold.
    rewrite insert_take_drop by done. by rewrite Hnew, Hold. }
  repeat split; try done.
  - by rewrite list_insert_insert_eq.
  - intros Hnone. rewrite list_insert_insert_eq. by apply list_insert_id.
Qed.

Lemma gate_edit_prefix_stable_witness :
  (2 < length [Some "H"; None; None; Some "X"])%nat
  ∧ [Some "H"; None; None; Some "X"] !! 2%nat = Some (None : gate)
  ∧ App.handleRemoveGate 2 (App.handleDropGate 2 "Z" [Some "H"; None; None; Some "X"])
    = [Some "H"; None; None; Some "X"].
Proof.
  assert (Hlt : (2 < length [Some "H"; None; None; Some "X"])%nat) by (simpl; lia).
  assert (Hn : [Some "H"; None; None; Some "X"] !! 2%nat = Some (None : gate))
    by reflexivity.
  pose proof (gate_edit_prefix_stable "ZERO" [Some "H"; None; None; Some "X"] 2 "Z" Hlt)
    as (_ & _ & _ & _ & _ & Hundo).
  exact (conj Hlt (conj Hn (Hundo Hn))).
Defined.

Lemma scheduleLoop_spec (fuel : nat) (ss : list state)
    (total step delay : nat) (ts : list App.timer) :
  ∃ new : list App.timer,
    App.scheduleLoop fuel ss total step delay ts = ts ++ new
    ∧ (∀ k t, new !! k = Some t →
         App.step t = (step + k)%nat ∧ App.delay t = (delay + 700 * k)%nat
         ∧ App.st t = ss !! (step + k)%nat)
    ∧ (∀ k t, new !! k = Some t → App.st t = Some "DECOHERED" → S k = length new)
    ∧ ((total + 1 - step ≤ fuel)%nat →
       length new = (total + 1 - step)%nat
       ∨ ∃ t, last new = Some t ∧ App.st t = Some "DECOHERED")
    ∧ (length new ≤ total + 1 - step)%nat.
Proof.
  revert step delay ts.
  induction fuel as [|fuel IH]; intros step delay ts; cbn [App.scheduleLoop].
  - exists []. rewrite app_nil_r. repeat split; try done; cbn [length]; [|lia].
    intros H. left. lia.
  - destruct (Nat.leb_spec step total) as [Hle | Hgt].
    + cbv zeta. case_bool_decide as Hd.
      * exists [App.Timer delay step (ss !! step)]. split; [done|].
        split; [|split; [|split]].
        -- intros [|k] t Hk; [|done]. injection Hk as <-.
           cbn [App.step App.delay App.st]. rewrite Nat.add_0_r.
           repeat split. lia.
        -- by intros [|k] t Hk.
        -- intros _. right. by eexists.
        -- cbn [length]. lia.
      * destruct (IH (S step) (delay + 700)%nat
                     (ts ++ [App.Timer delay step (ss !! step)]))
          as (new & E & Hidx & Hdec & Hfull & Hlen).
        exists (App.Timer delay step (ss !! step) :: new).
        split; [by rewrite E, <- app_assoc|].
        split; [|split; [|split]].
        -- intros [|k] t Hk.
           ++ injection Hk as <-. cbn [App.step App.delay App.st].
              rewrite Nat.add_0_r. repeat split. lia.
           ++ destruct (Hidx k t Hk) as (H1 & H2 & H3).
              rewrite H1, H2, H3. repeat split; [lia|lia|f_equal; lia].
        -- intros [|k] t Hk Hst.
           ++ injection Hk as <-. done.
           ++ cbn [length]. f_equal. by apply (Hdec k t).
        -- intros Hfuel. destruct Hfull as [Hn | (t & Hl & Hst)]; [lia| |].
           ++ left. cbn [length]. lia.
           ++ right. exists t. split; [|done].
              destruct new as [|t' new']; [done|]. exact Hl.
        -- cbn [length]. lia.
    + exists []. rewrite app_nil_r. repeat split; try done; cbn [length]; [|lia].
      intros _. left. lia.
Qed.

Lemma App_states_closed (init : state) (slots : list gate) :
  Forall (λ s, s ∈ allStates) (App.buildStepStates init slots).
Proof.
  rewrite App_buildStepStates_eq, buildStepStates_run.
  pose proof (coherent_allStates _ (seed_coherent init)) as Hs.
  apply Forall_app. split.
  - constructor; [done|]. by apply run_closed.
  - constructor; [|constructor]. by apply finalOf_closed.
Qed.

Lemma App_no_noise (init : state) (slots : list gate) :
  Some "NOISE" ∉ slots → "DECOHERED" ∉ App.buildStepStates init slots.
Proof.
  intros Hn Hin. rewrite App_buildStepStates_eq, buildStepStates_run in Hin.
  apply elem_of_app in Hin as [Hin | Hin].
  - apply decohered_not_coherent.
    apply elem_of_cons in Hin as [-> | Hin]; [apply seed_coherent|].
    pose proof (run_no_noise _ slots (seed_coherent init) Hn) as Hall.
    rewrite Forall_forall in Hall. by apply Hall.
  - apply list_elem_of_singleton in Hin. symmetry in Hin.
    by apply (finalOf_decohered_iff _ slots (seed_coherent init)) in Hin.
Qed.

Lemma measureRead_colour (st : option state) (r : rng) :
  (∀ s, st = Some s → s ∈ allStates) →
  st ≠ Some "DECOHERED" →
  fst (App.measureRead st r) ∈ ["blue"; "red"].
Proof.
  intros Hclosed Hnd. destruct st as [s|]; [|left].
  cbn [App.measureRead].
  change (App.measureState s r) with (Quantum.measureState s r).
  pose proof (measureState_colour s r) as Hc.
  destruct (measureState_run s r (Hclosed s eq_refl)) as [Hy _].
  assert (fst (Quantum.measureState s r) ≠ "yellow").
  { intros H. apply Hy in H. by subst. }
  revert Hc. rewrite !elem_of_cons, !elem_of_nil. tauto.
Qed.

(** X16. What Start schedules.  Timer k (counting from 0) belongs to step
    k + 1, fires after 800 + 700 k milliseconds and shows the state of the
    trajectory at that step.  Between 1 and NUM_SLOTS + 1 timers are set; a
    timer showing DECOHERED is the last one, and the schedule is cut short
    only in that way, so without a NOISE gate all NUM_SLOTS + 1 steps are
    scheduled.  Only the timer of the detector step measures, never on a
    decohered photon, so the measured colour is blue or red. *)
Theorem handleStart_schedule (init : state) (slots : list gate) :
  (1 ≤ length (App.handleStart_timers (App.buildStepStates init slots))
     ≤ App.NUM_SLOTS + 1)%nat
  ∧ (∀ (k : nat) (t : App.timer),
       App.handleStart_timers (App.buildStepStates init slots) !! k = Some t →
       App.step t = S k ∧ App.delay t = (800 + 700 * k)%nat
       ∧ App.st t = App.buildStepStates init slots !! S k)
  ∧ (∀ (k : nat) (t : App.timer),
       App.handleStart_timers (App.buildStepStates init slots) !! k = Some t →
       App.st t = Some "DECOHERED" →
       S k = length (App.handleStart_timers (App.buildStepStates init slots)))
  ∧ (length (App.handleStart_timers (App.buildStepStates init slots))
     = (App.NUM_SLOTS + 1)%nat
     ∨ ∃ t, last (App.handleStart_timers (App.buildStepStates init slots)) = Some t
            ∧ App.st t = Some "DECOHERED")
  ∧ (Some "NOISE" ∉ slots →
     length (App.handleStart_timers (App.buildStepStates init slots))
     = (App.NUM_SLOTS + 1)%nat)
  ∧ (∀ (t : App.timer) (m : Rand string) (r : rng),
       t ∈ App.handleStart_timers (App.buildStepStates init slots) →
       App.timerMeasures t = Some m →
       App.step t = (App.NUM_SLOTS + 1)%nat ∧ fst (m r) ∈ ["blue"; "red"]).
Proof.
  unfold App.handleStart_timers. cbv zeta.
  destruct (scheduleLoop_spec (App.NUM_SLOTS + 1) (App.buildStepStates init slots)
              (App.NUM_SLOTS + 1) 1 800 [])
    as (ts & E & Hidx & Hdec & Hfull & Hlen).
  rewrite E. cbn [app].
  assert (Hcut : length ts = (App.NUM_SLOTS + 1)%nat
                 ∨ ∃ t, last ts = Some t ∧ App.st t = Some "DECOHERED").
  { destruct Hfull as [Hn | H]; [lia| |by right]. left. lia. }
  split; [|split; [|split; [|split; [|split]]]].
  - split; [|lia]. destruct Hcut as [-> | (t & Hl & _)]; [unfold App.NUM_SLOTS; lia|].
    destruct ts; [done|]. cbn [length]. lia.
  - intros k t Hk. destruct (Hidx k t Hk) as (H1 & H2 & H3). by rewrite H1, H2, H3.
  - exact Hdec.
  - exact Hcut.
  - intros Hn. destruct Hcut as [|(t & Hl & Hst)]; [done|].
    exfalso. apply (App_no_noise init slots Hn).
    rewrite last_lookup in Hl. destruct (Hidx _ t Hl) as (_ & _ & H3).
    rewrite Hst in H3. symmetry in H3. by apply list_elem_of_lookup_2 in H3.
  - intros t m r Hin Hm. apply list_elem_of_lookup_1 in Hin as [k Hk].
    destruct (Hidx k t Hk) as (_ & _ & H3).
    unfold App.timerMeasures in Hm. case_bool_decide as Hd; [done|].
    destruct (Nat.eqb_spec (App.step t) (App.NUM_SLOTS + 1)) as [Hs | Hs]; [|done].
    injection Hm as <-. split; [done|].
    apply measureRead_colour; [|done].
    intros s Hst. rewrite Hst in H3. symmetry in H3.
    apply list_elem_of_lookup_2 in H3.
    pose proof (App_states_closed init slots) as Hall.
    rewrite Forall_forall in Hall. by apply Hall.
Qed.

Lemma handleStart_schedule_witness :
  (Some "NOISE" ∉ [Some "H"; None; Some "Z"; Some "H"])
  ∧ length (App.handleStart_timers
              (App.buildStepStates "ZERO" [Some "H"; None; Some "Z"; Some "H"]))
    = (App.NUM_SLOTS + 1)%nat.
Proof.
  assert (Hn : Some "NOISE" ∉ [Some "H"; None; Some "Z"; Some "H"]).
  { rewrite !not_elem_of_cons. repeat split; try discriminate.
    apply not_elem_of_nil. }
  pose proof (handleStart_schedule "ZERO" [Some "H"; None; Some "Z"; Some "H"])
    as (_ & _ & _ & _ & Hfull & _).
  exact (conj Hn (Hfull Hn)).
Defined.

Example handleStart_stops_at_noise :
  App.handleStart_timers
    (App.buildStepStates "ONE" [Some "X"; Some "NOISE"; Some "H"; None])
  = [App.Timer 800 1 (Some "ZERO"); App.Timer 1500 2 (Some "DECOHERED")].
Proof. vm_compute. reflexivity. Qed.

End CircuitView.
